(** * LineReader: reading a file one line at a time

    A shallow embedding of [LineReader] (the options-taking version, with
    [read(file)], [abort], [_step], [_hasMoreData] and [_emit]) together with
    the part of the host it talks to: a [File] that can be sliced, and a
    [FileReader] that decodes one slice at a time and later calls [onload]
    or [onerror].

    Text is a list of characters.  A file is its content, byte by byte, so
    that [file.size] is the length of the content and a slice is a run of
    bytes.  [readAsText] decodes every slice on its own, as UTF-8; the
    result is taken to be the bytes of the slice.  That is what the decoder
    gives for bytes below 128 ([seven_bit] content), where a character is
    one byte.  A character of several bytes that a chunk boundary cuts
    comes out of the decoder as replacement characters, and the text the
    engine then holds is not the text below: what is stated of the text of
    lines across chunk boundaries is stated of [seven_bit] content.  Where
    the ["\r"] and ["\n"] are does not depend on the decoding: they are
    bytes below 128, and no character of several bytes holds one.  Numbers
    are integers ([Z]): [readPos], [chunkSize] and [fileLength] are used
    for nothing but additions and comparisons. *)

From Stdlib Require Import ZArith Lia Ascii String.
From stdpp Require Import base gmap strings list.

(** ** Text and the two regular expressions *)

Definition text := list ascii.

Definition LF : ascii := "010"%char.
Definition CR : ascii := "013"%char.

(** [txt "abc"] is the text of a literal. *)
Definition txt (s : string) : text := list_ascii_of_string s.

(** The character class [[\r\n]]. *)
Definition is_terminator (c : ascii) : bool :=
  orb (Ascii.eqb c CR) (Ascii.eqb c LF).

(** [/\r|\n/.test(s)] *)
Definition has_terminator (s : text) : bool := existsb is_terminator s.

(** The successive matches of [/[^\r\n]+/g] in [s]: the maximal non-empty
    runs of characters other than ["\r"] and ["\n"].  [cur] is the run
    being matched. *)
Fixpoint runs (cur : text) (s : text) : list text :=
  match s with
  | [] => match cur with [] => [] | _ => [cur] end
  | c :: s' =>
      if is_terminator c
      then match cur with [] => runs [] s' | _ => cur :: runs [] s' end
      else runs (cur ++ [c]) s'
  end.

(** [s.match(/[^\r\n]+/g)]: the array of all matches, or [null] ([None])
    when there is none. *)
Definition match_runs (s : text) : option (list text) :=
  match runs [] s with
  | [] => None
  | ls => Some ls
  end.

(** [s[s.length - 1] === '\n'] *)
Definition ends_with_LF (s : text) : bool :=
  match last s with
  | Some c => Ascii.eqb c LF
  | None => false
  end.

(** ** Files and blobs *)

Record File := { content : text }.

Definition File_size (f : File) : Z := Z.of_nat (length (content f)).

(** [Blob.slice(start, end)] of the File API: a negative bound counts
    from the end, both bounds are clamped to the size, and the span is
    empty when the bounds cross. *)
Definition slice (b : text) (start end_ : Z) : text :=
  let size := Z.of_nat (length b) in
  let rel (x : Z) := if (x <? 0)%Z then Z.max (size + x) 0 else Z.min x size in
  let span := Z.max (rel end_ - rel start) 0 in
  take (Z.to_nat span) (drop (Z.to_nat (rel start)) b).

(** ** Events *)

(** The function handed to the consumer as second argument of a [line]
    event: [_step.bind(this)] or [_emit.bind(self, 'end')]. *)
Inductive continuation := StepK | EndK.

(** The cause carried by the [FileReader] when a read fails. *)
Definition DOMError := string.

(** A consumer function, by name. *)
Definition callback := nat.

(** An emission: the event together with its arguments. *)
Inductive emitted :=
| EvLine (line : text) (next : continuation)
| EvError (cause : DOMError)
| EvEnd.

Definition event_name (ev : emitted) : string :=
  match ev with
  | EvLine _ _ => "line"
  | EvError _ => "error"
  | EvEnd => "end"
  end.

(** What the engine does to the outside: it calls a consumer callback, or
    it asks the [FileReader] to read a blob. *)
Inductive action :=
| Call (cb : callback) (ev : emitted)
| ReadAsText (blob : text).

(** ** The instance state *)

(** [_internals].  [reader] is the [FileReader]: [Some blob] while the read
    of [blob] is in flight.  [lines] is [None] when it holds [null].
    Before the first [read(file)] the fields [file], [fileLength],
    [readPos], [chunk] and [lines] are undefined; [read(file)] sets all of
    them before anything reads them, except [file], which [read()] uses. *)
Record internals := {
  reader : option text;
  chunkSize : Z;
  events : gmap string callback;
  canRead : bool;
  file : option File;
  fileLength : Z;
  readPos : Z;
  chunk : text;
  lines : option (list text)
}.

Definition set_reader (r : option text) (s : internals) : internals :=
  {| reader := r; chunkSize := chunkSize s; events := events s;
     canRead := canRead s; file := file s; fileLength := fileLength s;
     readPos := readPos s; chunk := chunk s; lines := lines s |}.

Definition set_events (e : gmap string callback) (s : internals) : internals :=
  {| reader := reader s; chunkSize := chunkSize s; events := e;
     canRead := canRead s; file := file s; fileLength := fileLength s;
     readPos := readPos s; chunk := chunk s; lines := lines s |}.

Definition set_canRead (b : bool) (s : internals) : internals :=
  {| reader := reader s; chunkSize := chunkSize s; events := events s;
     canRead := b; file := file s; fileLength := fileLength s;
     readPos := readPos s; chunk := chunk s; lines := lines s |}.

Definition set_readPos (p : Z) (s : internals) : internals :=
  {| reader := reader s; chunkSize := chunkSize s; events := events s;
     canRead := canRead s; file := file s; fileLength := fileLength s;
     readPos := p; chunk := chunk s; lines := lines s |}.

Definition set_chunk (c : text) (s : internals) : internals :=
  {| reader := reader s; chunkSize := chunkSize s; events := events s;
     canRead := canRead s; file := file s; fileLength := fileLength s;
     readPos := readPos s; chunk := c; lines := lines s |}.

Definition set_lines (l : option (list text)) (s : internals) : internals :=
  {| reader := reader s; chunkSize := chunkSize s; events := events s;
     canRead := canRead s; file := file s; fileLength := fileLength s;
     readPos := readPos s; chunk := chunk s; lines := l |}.

(** The five assignments at the top of [read(file)]. *)
Definition set_file (f : File) (s : internals) : internals :=
  {| reader := reader s; chunkSize := chunkSize s; events := events s;
     canRead := canRead s; file := Some f; fileLength := File_size f;
     readPos := 0; chunk := []; lines := Some [] |}.

(** ** Methods: state, actions and exceptions *)

Inductive exn := TypeError | InvalidStateError.

Inductive completion (A : Type) :=
| Normal (a : A)
| Throws (e : exn).
Arguments Normal {A} a.
Arguments Throws {A} e.

(** A method runs on the state, leaves a state (also when it throws: the
    assignments made before the throw stay) and a list of actions. *)
Definition M (A : Type) : Type :=
  internals → completion A * internals * list action.

Global Instance M_ret : MRet M := λ A a s, (Normal a, s, []).

Global Instance M_bind : MBind M := λ A B k m s,
  match m s with
  | (Normal a, s1, out1) =>
      match k a s1 with (r, s2, out2) => (r, s2, out1 ++ out2) end
  | (Throws e, s1, out1) => (Throws e, s1, out1)
  end.

Definition throw {A} (e : exn) : M A := λ s, (Throws e, s, []).
Definition get : M internals := λ s, (Normal s, s, []).
Definition modify (f : internals → internals) : M unit := λ s, (Normal tt, f s, []).
Definition act (a : action) : M unit := λ s, (Normal tt, s, [a]).

(** [new LineReader(options)]: [chunkSize] is [options.chunkSize] when
    that is given and truthy (not zero), and 1024 otherwise. *)
Definition LineReader (chunkSize_option : option Z) : internals :=
  {| reader := None;
     chunkSize := match chunkSize_option with
                  | Some c => if (c =? 0)%Z then 1024%Z else c
                  | None => 1024%Z
                  end;
     events := ∅;
     canRead := true;
     file := None; fileLength := 0; readPos := 0; chunk := [];
     lines := Some [] |}.

(** [FileReader.readAsText(blob)]: throws [InvalidStateError] while a read
    is in flight, as the File API has it.  The blob is kept as its bytes;
    the decoding is that of [Load] below. *)
Definition readAsText (blob : text) : M unit :=
  s ← get;
  match reader s with
  | Some _ => throw InvalidStateError
  | None => modify (set_reader (Some blob)) ;; act (ReadAsText blob)
  end.

(** [LineReader.prototype.on] *)
Definition on (eventName : string) (cb : callback) : M unit :=
  modify (λ s, set_events (<[eventName := cb]> (events s)) s).

(** [LineReader.prototype._emit] *)
Definition _emit (ev : emitted) : M unit :=
  s ← get;
  match events s !! event_name ev with
  | Some cb => act (Call cb ev)
  | None => mret tt
  end.

(** [LineReader.prototype._hasMoreData] *)
Definition _hasMoreData : M bool :=
  s ← get; mret (readPos s <=? fileLength s)%Z.

(** [LineReader.prototype.read] *)
Definition read (f : option File) : M unit :=
  match f with
  | Some f' => modify (set_file f')
  | None => mret tt
  end ;;
  s ← get;
  match file s with
  | None => throw TypeError
  | Some fl =>
      let blob := slice (content fl) (readPos s) (readPos s + chunkSize s) in
      modify (set_readPos (readPos s + chunkSize s)) ;;
      readAsText blob
  end.

(** [LineReader.prototype.abort] *)
Definition abort : M unit := modify (set_canRead false).

(** [LineReader.prototype._step].  [lines.length] throws on [null];
    [lines.shift()] is evaluated before [_emit] is entered. *)
Definition _step : M unit :=
  s ← get;
  match lines s with
  | None => throw TypeError
  | Some [] =>
      more ← _hasMoreData;
      if (more : bool) then read None else _emit EvEnd
  | Some (l :: ls) =>
      if canRead s
      then modify (set_lines (Some ls)) ;; _emit (EvLine l StepK)
      else _emit EvEnd
  end.

(** [internals.lines.pop()] assigned to [internals.chunk]: throws on
    [null].  [match] never gives an empty array, so the array has a last
    element whenever this runs. *)
Definition pop_into_chunk : M unit :=
  s ← get;
  match lines s with
  | None => throw TypeError
  | Some ls =>
      modify (set_lines (Some (removelast ls))) ;;
      modify (set_chunk (default [] (last ls)))
  end.

(** [internals.reader.onload], with [this.result] as argument. *)
Definition onload (result : text) : M unit :=
  modify (λ s, set_chunk (chunk s ++ result) s) ;;
  s ← get;
  if has_terminator (chunk s) then
    modify (set_lines (match_runs (chunk s))) ;;
    more ← _hasMoreData;
    (if (more : bool)
     then if ends_with_LF (chunk s) then modify (set_chunk []) else pop_into_chunk
     else mret tt) ;;
    _step
  else
    more ← _hasMoreData;
    if (more : bool) then read None
    else match chunk s with
         | _ :: _ => _emit (EvLine (chunk s) EndK)
         | [] => _emit EvEnd
         end.

(** [internals.reader.onerror], with [this.error] as argument. *)
Definition onerror (cause : DOMError) : M unit := _emit (EvError cause).

(** ** The engine as a transition system *)

(** What can happen to an instance: the consumer calls a method or one of
    the continuations it was handed, or the [FileReader] finishes the read
    in flight.  On [Load] the result handed to [onload] is the blob itself:
    the UTF-8 decoding of a blob of bytes below 128 (see [seven_bit]); on
    other blobs the decoder gives other characters, none of them a ["\r"]
    or a ["\n"] that the blob does not hold. *)
Inductive input :=
| On (eventName : string) (cb : callback)
| Read (f : option File)
| Abort
| Next (k : continuation)
| Load
| Fail (cause : DOMError).

Definition deliver (i : input) : M unit :=
  match i with
  | On n cb => on n cb
  | Read f => read f
  | Abort => abort
  | Next StepK => _step
  | Next EndK => _emit EvEnd
  | Load =>
      s ← get;
      match reader s with
      | Some blob => modify (set_reader None) ;; onload blob
      | None => mret tt
      end
  | Fail cause =>
      s ← get;
      match reader s with
      | Some _ => modify (set_reader None) ;; onerror cause
      | None => mret tt
      end
  end.

(** How a run stops. *)
Inductive status :=
| Quiescent          (* nothing in flight and nothing to acknowledge *)
| Thrown (e : exn)   (* an exception left a method or a handler *)
| OutOfFuel.

(** A script of inputs, one after the other, until one throws; [d] is the
    delivery of one input. *)
Fixpoint script_of (d : input → M unit) (ins : list input) (s : internals)
  : list action * internals * option exn :=
  match ins with
  | [] => ([], s, None)
  | i :: ins' =>
      match d i s with
      | (Normal _, s1, out) =>
          match script_of d ins' s1 with (out', s2, r) => (out ++ out', s2, r) end
      | (Throws e, s1, out) => (out, s1, Some e)
      end
  end.

Definition script : list input → internals → list action * internals * option exn :=
  script_of deliver.

(** What a script does to the outside, and the exception that ended it. *)
Definition transcript (ins : list input) (s : internals)
  : list action * option exn :=
  match script ins s with (out, _, r) => (out, r) end.

(** The state a script leaves. *)
Definition state_after (ins : list input) (s : internals) : internals :=
  match script ins s with (_, s', _) => s' end.

(** The continuation of the last [line] event among [out], if any. *)
Fixpoint handed (out : list action) : option continuation :=
  match out with
  | [] => None
  | a :: out' =>
      match handed out', a with
      | Some k, _ => Some k
      | None, Call _ (EvLine _ k) => Some k
      | None, _ => None
      end
  end.

(** The acknowledging consumer and the Chunk Source, as a scheduler: a read
    in flight is completed (it succeeds, or fails with the cause that
    [source] lists for it), and otherwise the continuation handed with the
    last [line] event is called.  [source] lists the outcome of the reads
    to come, [None] for success; past its end every read succeeds. *)
Definition next_input (source : list (option DOMError)) (s : internals)
    (owed : option continuation) : option input :=
  match reader s with
  | Some _ =>
      match source with
      | Some cause :: _ => Some (Fail cause)
      | _ => Some Load
      end
  | None =>
      match owed with
      | Some k => Some (Next k)
      | None => None
      end
  end.

(** The reads that [source] still describes, once input [i] is delivered. *)
Definition source_after (i : input) (source : list (option DOMError))
    : list (option DOMError) :=
  match i with
  | Next _ => source
  | _ => tail source
  end.

(** Goes on with [k] after a method has returned; stops when it threw. *)
Definition resume (k : internals → option continuation → list action * status)
    (r : completion unit * internals * list action) : list action * status :=
  match r with
  | (Normal _, s1, out) =>
      match k s1 (handed out) with (out', st) => (out ++ out', st) end
  | (Throws e, _, out) => (out, Thrown e)
  end.

Fixpoint drive (fuel : nat) (source : list (option DOMError))
    (s : internals) (owed : option continuation) : list action * status :=
  match next_input source s owed with
  | None => ([], Quiescent)
  | Some i =>
      match fuel with
      | O => ([], OutOfFuel)
      | S fuel' => resume (drive fuel' (source_after i source)) (deliver i s)
      end
  end.

(** An instance with one callback bound to each of the three events. *)
Definition line_cb : callback := 1.
Definition end_cb : callback := 2.
Definition error_cb : callback := 3.

Definition bound (options : option Z) : internals :=
  set_events (<["line" := line_cb]> (<["end" := end_cb]> (<["error" := error_cb]> ∅)))
             (LineReader options).

(** [read(file)] on such an instance, against the acknowledging consumer
    and the Chunk Source [source]. *)
Definition run (fuel : nat) (source : list (option DOMError))
    (s : internals) (f : File) : list action * status :=
  resume (drive fuel source) (read (Some f) s).

(** ** What the consumer sees *)

Inductive event :=
| Line (line : text)
| Error (cause : DOMError)
| End.

Definition observe (a : action) : option event :=
  match a with
  | Call _ (EvLine l _) => Some (Line l)
  | Call _ (EvError c) => Some (Error c)
  | Call _ EvEnd => Some End
  | ReadAsText _ => None
  end.

(** The events fired, in order. *)
Definition fired (out : list action) : list event := omap observe out.

Definition session (fuel : nat) (chunkSize_ : Z) (c : text) : list event * status :=
  match run fuel [] (bound (Some chunkSize_)) {| content := c |} with
  | (out, st) => (fired out, st)
  end.

(** ** The earlier version: [new LineReader(file)], [read()], [stop()]

    The same instance state and the same host.  The file is given to the
    constructor, the chunk size is 1024, lines are split at ["\n"] only,
    and there is no [end] event. *)
Module Variant.

(** [s.split('\n')]: the texts between the ["\n"]s, empty ones included;
    [cur] is the text being collected. *)
Fixpoint split_LF (cur : text) (s : text) : list text :=
  match s with
  | [] => [cur]
  | c :: s' =>
      if Ascii.eqb c LF then cur :: split_LF [] s' else split_LF (cur ++ [c]) s'
  end.

(** [new LineReader(file)] *)
Definition LineReader (f : File) : internals :=
  {| reader := None; chunkSize := 1024; events := ∅; canRead := true;
     file := Some f; fileLength := File_size f; readPos := 0; chunk := [];
     lines := Some [] |}.

(** [LineReader.prototype.read]; [readAsBinaryString] is recorded as the
    read of the blob. *)
Definition read : M unit :=
  s ← get;
  match file s with
  | None => throw TypeError
  | Some fl =>
      let blob := slice (content fl) (readPos s) (readPos s + chunkSize s) in
      modify (set_readPos (readPos s + chunkSize s)) ;;
      readAsText blob
  end.

(** [LineReader.prototype.stop] *)
Definition stop : M unit := modify (set_canRead false).

(** [LineReader.prototype._hasMoreData]; [onload] tests the function
    itself, which is always truthy, and never calls it. *)
Definition _hasMoreData : M bool :=
  s ← get; mret (readPos s <? fileLength s)%Z.

(** [LineReader.prototype._step] *)
Definition _step : M unit :=
  s ← get;
  match lines s with
  | None => throw TypeError
  | Some [] => read
  | Some (l :: ls) =>
      match events s !! "line" with
      | Some cb =>
          if canRead s
          then modify (set_lines (Some ls)) ;; act (Call cb (EvLine l StepK))
          else mret tt
      | None => mret tt
      end
  end.

(** [internals.reader.onload]: nothing happens while the buffer holds no
    ["\n"]. *)
Definition onload (result : text) : M unit :=
  modify (λ s, set_chunk (chunk s ++ result) s) ;;
  s ← get;
  if existsb (λ c, Ascii.eqb c LF) (chunk s) then
    modify (set_lines (Some (split_LF [] (chunk s)))) ;;
    pop_into_chunk ;;
    _step
  else mret tt.

(** The inputs, delivered to this version: [read] takes no file, every
    continuation handed out is [_step], and no [onerror] is set. *)
Definition deliver (i : input) : M unit :=
  match i with
  | On n cb => on n cb
  | Read _ => read
  | Abort => stop
  | Next _ => _step
  | Load =>
      s ← get;
      match reader s with
      | Some blob => modify (set_reader None) ;; onload blob
      | None => mret tt
      end
  | Fail _ => modify (set_reader None)
  end.

(** What a script of inputs does to the outside. *)
Definition transcript (ins : list input) (s : internals)
  : list action * option exn :=
  match script_of deliver ins s with (out, _, r) => (out, r) end.

End Variant.

(** * Predicates and states of the statements *)

(** No ["\r"] and no ["\n"] in [s]. *)
Definition term_free (s : text) : Prop := Forall (λ c, is_terminator c = false) s.

(** A run in progress is closed by the end of the text. *)
Definition flush (cur : text) : list text :=
  match cur with [] => [] | _ => [cur] end.

(** A byte below 128: the character that UTF-8 writes as this byte alone,
    and that [readAsText] gives back for it wherever the slices are cut. *)
Definition is_7bit (ch : ascii) : bool :=
  match ch with Ascii _ _ _ _ _ _ _ b7 => negb b7 end.

(** Content of such bytes only: decoding a slice of it gives the slice. *)
Definition seven_bit (c : text) : Prop := Forall (λ ch, is_7bit ch = true) c.

(** The texts between the terminators of [s], the empty ones included:
    every ["\r"] and every ["\n"] ends one.  [cur] is the text being
    collected. *)
Fixpoint fields (cur : text) (s : text) : list text :=
  match s with
  | [] => [cur]
  | ch :: s' =>
      if is_terminator ch then cur :: fields [] s' else fields (cur ++ [ch]) s'
  end.

(** No ["\r"] in [x]. *)
Definition CR_free (x : text) : Prop := Forall (λ ch, ch ≠ CR) x.

(** No terminator of [x] closes an empty run: [fresh] tells whether the
    run in progress is still empty. *)
Fixpoint blank_free (fresh : bool) (x : text) : Prop :=
  match x with
  | [] => True
  | ch :: x' =>
      if is_terminator ch then fresh = false ∧ blank_free true x'
      else blank_free false x'
  end.

(** [p.length === 0] *)
Definition is_empty (p : text) : bool :=
  match p with [] => true | _ => false end.

(** The content split at every terminator, the empty texts left out. *)
Definition pieces (c : text) : list text :=
  List.filter (λ l, negb (is_empty l)) (fields [] c).

(** The concatenation of the lines [ls], each followed by ["\n"]. *)
Definition terminated (ls : list text) : text :=
  concat (map (λ l, l ++ [LF]) ls).

(** The states of a session on content [c], with chunk size [cs] and
    callbacks [ev], that has not been aborted. *)
Definition st (cs : Z) (c : text) (ev : gmap string callback)
    (rd : option text) (q : Z) (p : text) (ls : option (list text))
  : internals :=
  {| reader := rd; chunkSize := cs; events := ev; canRead := true;
     file := Some {| content := c |}; fileLength := Z.of_nat (length c);
     readPos := q; chunk := p; lines := ls |}.

(** A read in flight: the slice that starts at [a], with [p] pending. *)
Definition reading (cs : Z) (c : text) (ev : gmap string callback)
    (a : Z) (p : text) : internals :=
  st cs c ev (Some (slice c a (a + cs))) (a + cs) p (Some []).






(** A first session on ["a\nb\n"], run to its end. *)
Definition ended_instance : internals :=
  state_after [Read (Some {| content := terminated [txt "a"; txt "b"] |});
               Load; Next StepK; Next StepK]
              (bound None).

(** A first session on ["a\nb\n"], aborted after its first line. *)
Definition aborted_instance : internals :=
  state_after [Read (Some {| content := terminated [txt "a"; txt "b"] |});
               Load; Abort; Next StepK]
              (bound None).

(** ** What a session reads and what it delivers *)

(** [s] without its ["\r"] and ["\n"]. *)
Definition kept (s : text) : text :=
  List.filter (λ ch, negb (is_terminator ch)) s.

(** The blobs asked of the [FileReader], in order. *)
Definition requested (out : list action) : list text :=
  omap (λ a, match a with ReadAsText b => Some b | _ => None end) out.

(** The texts of the [line] events, in order. *)
Definition lines_of (evs : list event) : list text :=
  omap (λ e, match e with Line l => Some l | _ => None end) evs.

(** The slices at [q], [q + cs], [q + 2 cs], ... as long as the position
    is not past the length of [c]; [n] bounds their number. *)
Fixpoint reads_from (c : text) (cs : Z) (n : nat) (q : Z) : list text :=
  match n with
  | O => []
  | S n' =>
      if (q <=? Z.of_nat (length c))%Z
      then slice c q (q + cs) :: reads_from c cs n' (q + cs)
      else []
  end.

(** All of them, from the start of the file. *)
Definition reads (c : text) (cs : Z) : list text :=
  reads_from c cs (length c + 2) 0.

(** ** After [abort] *)

(** An action other than the delivery of a queued line: [_step] hands
    [_step] itself as continuation, [onload] hands the emission of [end]
    with the text left at the end of the file. *)
Definition not_from_queue (a : action) : Prop :=
  match a with
  | Call _ (EvLine _ StepK) => False
  | _ => True
  end.

(** ** A negative chunk size *)

(** An instance that was given a negative chunk size, in the middle of a
    session: [readPos] is not past the length, a [line] callback is
    bound, and a read is in flight or the consumer holds [_step]. *)
Definition endless (s : internals) (owed : option continuation) : Prop :=
  (chunkSize s < 0)%Z ∧ (readPos s ≤ fileLength s)%Z ∧ canRead s = true ∧
  is_Some (file s) ∧ is_Some (events s !! "line") ∧
  (is_Some (reader s) ∨ owed = Some StepK).

(** An action other than the [end] event. *)
Definition not_end (a : action) : Prop :=
  match a with
  | Call _ EvEnd => False
  | _ => True
  end.

(** ** Sessions of the earlier version *)

(** No ["\n"] in [x]. *)
Definition LF_free (x : text) : Prop := Forall (λ ch, ch ≠ LF) x.

(** [/\n/.test(s)] *)
Definition has_LF (s : text) : bool := existsb (λ ch, Ascii.eqb ch LF) s.

(** The acknowledging consumer and a [FileReader] that never fails, on
    the earlier version. *)
Fixpoint Variant_drive (fuel : nat) (s : internals)
    (owed : option continuation) : list action * status :=
  match next_input [] s owed with
  | None => ([], Quiescent)
  | Some i =>
      match fuel with
      | O => ([], OutOfFuel)
      | S fuel' => resume (Variant_drive fuel') (Variant.deliver i s)
      end
  end.

(** [new LineReader(file)] with a [line] callback bound. *)
Definition Variant_bound (c : text) : internals :=
  set_events (<["line" := line_cb]> ∅) (Variant.LineReader {| content := c |}).

(** [read()] on it, and the run that follows. *)
Definition Variant_run (fuel : nat) (c : text) : list action * status :=
  resume (Variant_drive fuel) (Variant.read (Variant_bound c)).

(** The states of such a session. *)
Definition Variant_st (c : text) (rd : option text) (q : Z) (p : text)
    (ls : option (list text)) : internals :=
  {| reader := rd; chunkSize := 1024; events := <["line" := line_cb]> ∅;
     canRead := true; file := Some {| content := c |};
     fileLength := Z.of_nat (length c); readPos := q; chunk := p; lines := ls |}.

(** An action that calls no callback. *)
Definition is_request (a : action) : Prop :=
  match a with
  | ReadAsText _ => True
  | Call _ _ => False
  end.

(** * Properties *)

(** ** Runs of non-terminators *)

Lemma has_terminator_false (s : text) : has_terminator s = false ↔ term_free s.
Proof.
  unfold has_terminator, term_free. induction s as [|c s IH]; simpl.
  - split; [constructor | reflexivity].
  - rewrite orb_false_iff, IH, Forall_cons. reflexivity.
Qed.

Lemma has_terminator_app (a b : text) :
  has_terminator (a ++ b) = has_terminator a || has_terminator b.
Proof. unfold has_terminator. apply existsb_app. Qed.

Lemma term_free_app (a b : text) : term_free a → term_free b → term_free (a ++ b).
Proof. unfold term_free. intros. apply Forall_app; auto. Qed.

Lemma runs_nil (cur : text) : runs cur [] = flush cur.
Proof. reflexivity. Qed.

Lemma runs_cons_terminator (cur : text) c s :
  is_terminator c = true → runs cur (c :: s) = flush cur ++ runs [] s.
Proof. intros H. simpl. rewrite H. destruct cur; reflexivity. Qed.

(** Characters that are no terminators extend the run in progress. *)
Lemma runs_term_free (a : text) : ∀ cur s,
  term_free a → runs cur (a ++ s) = runs (cur ++ a) s.
Proof.
  induction a as [|c a IH]; intros cur s Ha.
  - rewrite app_nil_r. reflexivity.
  - inversion Ha as [|? ? Hc Ha']; subst. simpl. rewrite Hc.
    rewrite IH by assumption. rewrite <- app_assoc. reflexivity.
Qed.

(** After a terminator the matching starts afresh. *)
Lemma runs_app_terminator (a : text) : ∀ cur t b,
  is_terminator t = true →
  runs cur (a ++ t :: b) = runs cur (a ++ [t]) ++ runs [] b.
Proof.
  induction a as [|c a IH]; intros cur t b Ht.
  - simpl. rewrite Ht. destruct cur; simpl; rewrite ?app_nil_r; reflexivity.
  - simpl. destruct (is_terminator c).
    + destruct cur; rewrite (IH [] t b Ht); reflexivity.
    + apply IH, Ht.
Qed.

(** A text that ends in the middle of a run: its last match is the run in
    progress, which the text that follows extends. *)
Lemma runs_open_end (a : text) : ∀ cur c,
  is_terminator c = false →
  ∃ init open,
    runs cur (a ++ [c]) = init ++ [open] ∧
    open ≠ [] ∧
    (term_free cur → term_free open) ∧
    ∀ b, runs cur (a ++ c :: b) = init ++ runs open b.
Proof.
  induction a as [|d a IH]; intros cur c Hc.
  - exists [], (cur ++ [c]). simpl. rewrite Hc. repeat split.
    + destruct (cur ++ [c]) eqn:E; [destruct cur; discriminate | reflexivity].
    + destruct cur; discriminate.
    + intros Hcur. apply term_free_app; [assumption | repeat constructor; assumption].
  - simpl. destruct (is_terminator d) eqn:Hd.
    + destruct (IH [] c Hc) as (init & open & E & Hne & Htf & Hb).
      exists (flush cur ++ init), open. repeat split.
      * destruct cur; simpl; rewrite E; reflexivity.
      * assumption.
      * intros _. apply Htf. constructor.
      * intros b. destruct cur; simpl; rewrite Hb; reflexivity.
    + destruct (IH (cur ++ [d]) c Hc) as (init & open & E & Hne & Htf & Hb).
      exists init, open. repeat split; try assumption.
      intros Hcur. apply Htf, term_free_app; [assumption | repeat constructor; assumption].
Qed.

(** Every match is free of terminators, and none is empty. *)
Lemma runs_term_free_elements (s : text) : ∀ cur,
  term_free cur → Forall (λ l, term_free l ∧ l ≠ []) (runs cur s).
Proof.
  induction s as [|c s IH]; intros cur Hcur; simpl.
  - destruct cur; [constructor|].
    constructor; [split; [assumption | discriminate] | constructor].
  - destruct (is_terminator c) eqn:Hc.
    + destruct cur.
      * apply IH. constructor.
      * constructor; [split; [assumption | discriminate] | apply IH; constructor].
    + apply IH, term_free_app; [assumption | repeat constructor; assumption].
Qed.

Lemma match_runs_not_empty (s : text) : match_runs s ≠ Some [].
Proof. unfold match_runs. destruct (runs [] s); discriminate. Qed.

Lemma last_snoc_text (a : text) c : last (a ++ [c]) = Some c.
Proof. apply last_snoc. Qed.

(** ** Slices *)

Lemma slice_drop (c : text) (a k : Z) :
  (0 ≤ a)%Z → (0 < k)%Z →
  drop (Z.to_nat a) c = slice c a (a + k) ++ drop (Z.to_nat (a + k)) c.
Proof.
  intros Ha Hk. unfold slice.
  destruct (Z.ltb_spec a 0) as [?|_]; [lia|].
  destruct (Z.ltb_spec (a + k) 0) as [?|_]; [lia|].
  destruct (Z_lt_le_dec a (Z.of_nat (length c))) as [Hin|Hout].
  - rewrite (Z.min_l a) by lia.
    destruct (Z_le_gt_dec (a + k) (Z.of_nat (length c))) as [Hfull|Hpart].
    + rewrite Z.min_l by lia. rewrite Z.max_l by lia.
      replace (Z.to_nat (a + k)) with (Z.to_nat a + Z.to_nat (a + k - a)) by lia.
      rewrite <- drop_drop, take_drop. reflexivity.
    + rewrite Z.min_r by lia. rewrite Z.max_l by lia.
      rewrite take_ge by (rewrite length_drop; lia).
      rewrite (drop_ge c (Z.to_nat (a + k))) by lia.
      rewrite app_nil_r. reflexivity.
  - rewrite !Z.min_r by lia. rewrite Z.sub_diag. simpl.
    rewrite !drop_ge by lia. reflexivity.
Qed.

Lemma drop_past_end (c : text) (q : Z) :
  (Z.of_nat (length c) < q)%Z → drop (Z.to_nat q) c = [].
Proof. intros H. apply drop_ge. lia. Qed.

(** ** Content without blank lines *)

Lemma is_empty_app_r (p r : text) : r ≠ [] → is_empty (p ++ r) = false.
Proof. destruct p, r; simpl; congruence. Qed.

Lemma blank_free_app (a : text) : ∀ fresh b,
  blank_free fresh (a ++ b) →
  blank_free (match last a with Some ch => is_terminator ch | None => fresh end) b.
Proof.
  induction a as [|ch a IH]; intros fresh b H; [exact H|].
  assert (H' : blank_free (is_terminator ch) (a ++ b)).
  { simpl in H. destruct (is_terminator ch); [apply H | exact H]. }
  apply IH in H'. destruct a as [|d a']; [exact H'|].
  change (last (ch :: d :: a')) with (last (d :: a')).
  destruct (last (d :: a')) eqn:E; [exact H'|].
  apply last_None in E. discriminate.
Qed.

Lemma runs_nil_inv (s : text) : ∀ cur,
  runs cur s = [] → cur = [] ∧ Forall (λ ch, is_terminator ch = true) s.
Proof.
  induction s as [|ch s IH]; intros cur H; simpl in H.
  - destruct cur; [split; [reflexivity | constructor] | discriminate].
  - destruct (is_terminator ch) eqn:Hch.
    + destruct cur; [|discriminate]. split; [reflexivity|].
      constructor; [assumption | apply (IH [] H)].
    + apply IH in H as [H _]. destruct cur; discriminate.
Qed.

Lemma CR_free_terminator ch : ch ≠ CR → is_terminator ch = Ascii.eqb ch LF.
Proof.
  intros H. unfold is_terminator.
  destruct (Ascii.eqb_spec ch CR); [contradiction | reflexivity].
Qed.

Lemma ends_with_LF_snoc (a : text) ch : ends_with_LF (a ++ [ch]) = Ascii.eqb ch LF.
Proof. unfold ends_with_LF. rewrite last_snoc. reflexivity. Qed.

Lemma text_snoc (r : text) : r ≠ [] → ∃ r0 ch, r = r0 ++ [ch].
Proof.
  intros H. destruct (exists_last H) as (r0 & ch & E). exists r0, ch. exact E.
Qed.

Lemma has_terminator_not_nil (r : text) : has_terminator r = true → r ≠ [].
Proof. destruct r; [discriminate | congruence]. Qed.

(** ** Driving an instance *)

Lemma drive_quiet fuel src s owed :
  next_input src s owed = None → drive fuel src s owed = ([], Quiescent).
Proof. intros H. destruct fuel; simpl; rewrite H; reflexivity. Qed.

Lemma drive_input fuel src s owed i :
  next_input src s owed = Some i →
  drive (S fuel) src s owed = resume (drive fuel (source_after i src)) (deliver i s).
Proof. intros H. simpl. rewrite H. reflexivity. Qed.

(** A run that has stopped is not changed by more fuel. *)
Lemma drive_fuel_mono fuel : ∀ src s owed out st fuel',
  drive fuel src s owed = (out, st) → st ≠ OutOfFuel → fuel ≤ fuel' →
  drive fuel' src s owed = (out, st).
Proof.
  induction fuel as [|fuel IH]; intros src s owed out st fuel' H Hst Hle.
  - simpl in H. destruct (next_input src s owed) eqn:Hi.
    + inversion H; subst. congruence.
    + inversion H; subst. apply drive_quiet, Hi.
  - destruct fuel' as [|fuel']; [lia|]. simpl in *.
    destruct (next_input src s owed) as [i|]; [|assumption].
    unfold resume in *.
    destruct (deliver i s) as [[[[]|e] s1] out1]; [|assumption].
    destruct (drive fuel _ s1 (handed out1)) as [out2 st2] eqn:E.
    inversion H; subst.
    rewrite (IH _ _ _ _ _ fuel' E) by (assumption || lia). reflexivity.
Qed.

Lemma resume_fuel_mono fuel fuel' src r out st :
  resume (drive fuel src) r = (out, st) → st ≠ OutOfFuel → fuel ≤ fuel' →
  resume (drive fuel' src) r = (out, st).
Proof.
  intros H Hst Hle. destruct r as [[[[]|e] s1] out1]; simpl in *; [|assumption].
  destruct (drive fuel src s1 (handed out1)) as [out2 st2] eqn:E.
  inversion H; subst.
  rewrite (drive_fuel_mono _ _ _ _ _ _ fuel' E) by assumption. reflexivity.
Qed.

Lemma fired_app (a b : list action) : fired (a ++ b) = fired a ++ fired b.
Proof. apply omap_app. Qed.

Lemma fired_read b (out : list action) : fired (ReadAsText b :: out) = fired out.
Proof. reflexivity. Qed.

(** Unfolds the methods on a state given by its fields. *)
Ltac exec :=
  cbv [deliver onload onerror _step read abort on _emit _hasMoreData
       readAsText pop_into_chunk
       mbind M_bind mret M_ret get modify act throw event_name
       set_reader set_events set_canRead set_readPos set_chunk set_lines set_file
       reader chunkSize events canRead file fileLength readPos chunk lines
       content File_size].

(** ** One session *)

Section Session.

Variables (cs : Z) (c : text) (ev : gmap string callback) (cbl cbe : callback).
Hypothesis cs_pos : (0 < cs)%Z.
Hypothesis line_bound : ev !! "line" = Some cbl.
Hypothesis end_bound : ev !! "end" = Some cbe.

Local Abbreviation state := (st cs c ev).
Local Abbreviation inflight := (reading cs c ev).
Local Abbreviation len := (Z.of_nat (length c)).

Lemma step_line q p l ls :
  _step (state None q p (Some (l :: ls)))
  = (Normal tt, state None q p (Some ls), [Call cbl (EvLine l StepK)]).
Proof. unfold st. exec. rewrite line_bound. reflexivity. Qed.

Lemma step_more q p :
  (q ≤ Z.of_nat (length c))%Z →
  _step (state None q p (Some []))
  = (Normal tt, state (Some (slice c q (q + cs))) (q + cs) p (Some []),
     [ReadAsText (slice c q (q + cs))]).
Proof.
  intros H. unfold st. exec. rewrite (proj2 (Z.leb_le _ _) H). reflexivity.
Qed.

Lemma step_end q p :
  (Z.of_nat (length c) < q)%Z →
  _step (state None q p (Some []))
  = (Normal tt, state None q p (Some []), [Call cbe EvEnd]).
Proof.
  intros H. unfold st. exec. rewrite (proj2 (Z.leb_gt _ _) H).
  rewrite end_bound. reflexivity.
Qed.

Lemma step_null q p :
  _step (state None q p None) = (Throws TypeError, state None q p None, []).
Proof. reflexivity. Qed.

(** [onload] when the buffer holds no terminator. *)
Lemma onload_quiet_more q p r ls :
  has_terminator (p ++ r) = false → (q ≤ Z.of_nat (length c))%Z →
  onload r (state None q p ls)
  = (Normal tt, state (Some (slice c q (q + cs))) (q + cs) (p ++ r) ls,
     [ReadAsText (slice c q (q + cs))]).
Proof.
  intros Ht H. unfold st. exec. rewrite Ht.
  rewrite (proj2 (Z.leb_le _ _) H). reflexivity.
Qed.

Lemma onload_quiet_last q p r ls :
  has_terminator (p ++ r) = false → (Z.of_nat (length c) < q)%Z →
  p ++ r ≠ [] →
  onload r (state None q p ls)
  = (Normal tt, state None q (p ++ r) ls, [Call cbl (EvLine (p ++ r) EndK)]).
Proof.
  intros Ht H Hne. unfold st. exec. rewrite Ht.
  rewrite (proj2 (Z.leb_gt _ _) H).
  destruct (p ++ r); [congruence|]. rewrite line_bound. reflexivity.
Qed.

Lemma onload_quiet_empty q p r ls :
  (Z.of_nat (length c) < q)%Z → p ++ r = [] →
  onload r (state None q p ls)
  = (Normal tt, state None q [] ls, [Call cbe EvEnd]).
Proof.
  intros H He. unfold st. exec. rewrite He. simpl.
  rewrite (proj2 (Z.leb_gt _ _) H). rewrite end_bound. reflexivity.
Qed.

(** [onload] when the buffer holds a terminator: what is left to run is
    [_step]. *)
Lemma onload_split_closed q p r ls :
  has_terminator (p ++ r) = true → (q ≤ Z.of_nat (length c))%Z →
  ends_with_LF (p ++ r) = true →
  onload r (state None q p ls) = _step (state None q [] (match_runs (p ++ r))).
Proof.
  intros Ht H He. unfold st. exec. rewrite Ht.
  rewrite (proj2 (Z.leb_le _ _) H), He.
  destruct (match_runs (p ++ r)) as [[|]|]; exec;
    rewrite ?(proj2 (Z.leb_le _ _) H), ?line_bound; reflexivity.
Qed.

Lemma onload_split_open q p r ls toks :
  has_terminator (p ++ r) = true → (q ≤ Z.of_nat (length c))%Z →
  ends_with_LF (p ++ r) = false →
  match_runs (p ++ r) = Some toks →
  onload r (state None q p ls)
  = _step (state None q (default [] (last toks)) (Some (removelast toks))).
Proof.
  intros Ht H He Hm. unfold st. exec. rewrite Ht.
  rewrite (proj2 (Z.leb_le _ _) H), He, Hm.
  destruct (removelast toks); exec;
    rewrite ?(proj2 (Z.leb_le _ _) H), ?line_bound; reflexivity.
Qed.

Lemma onload_split_last q p r ls :
  has_terminator (p ++ r) = true → (Z.of_nat (length c) < q)%Z →
  onload r (state None q p ls) = _step (state None q (p ++ r) (match_runs (p ++ r))).
Proof.
  intros Ht H. unfold st. exec. rewrite Ht.
  rewrite (proj2 (Z.leb_gt _ _) H).
  destruct (match_runs (p ++ r)) as [[|]|]; exec;
    rewrite ?(proj2 (Z.leb_gt _ _) H), ?line_bound, ?end_bound; reflexivity.
Qed.

(** The same, when [match] finds nothing: [null] is stored, and either
    [pop] or [length] is applied to it. *)
Lemma onload_split_null q p r ls :
  has_terminator (p ++ r) = true → match_runs (p ++ r) = None →
  ∃ s', onload r (state None q p ls) = (Throws TypeError, s', []).
Proof.
  intros Ht Hm. unfold st. exec. rewrite Ht, Hm.
  destruct (q <=? Z.of_nat (length c))%Z; [destruct (ends_with_LF (p ++ r))|];
    eexists; reflexivity.
Qed.

(** The consumer acknowledges line after line until the queue is empty. *)
Lemma drive_acknowledge fuel q p ls :
  drive (S fuel) [] (state None q p ls) (Some StepK)
  = resume (drive fuel []) (_step (state None q p ls)).
Proof. reflexivity. Qed.

Lemma drain ls : ∀ q p fuel out st_,
  resume (drive fuel []) (_step (state None q p (Some []))) = (out, st_) →
  resume (drive (length ls + fuel) []) (_step (state None q p (Some ls)))
  = (map (λ l, Call cbl (EvLine l StepK)) ls ++ out, st_).
Proof.
  induction ls as [|l ls IH]; intros q p fuel out st_ H.
  - exact H.
  - rewrite step_line. cbn [length Nat.add resume handed].
    rewrite drive_acknowledge, (IH _ _ _ _ _ H). reflexivity.
Qed.

(** The [FileReader] completes the read in flight. *)
Lemma drive_load fuel r q p ls owed :
  drive (S fuel) [] (state (Some r) q p ls) owed
  = resume (drive fuel []) (onload r (state None q p ls)).
Proof.
  unfold st. cbn [drive next_input reader source_after tail].
  cbv [deliver mbind M_bind get modify set_reader
       reader chunkSize events canRead file fileLength readPos chunk lines].
  match goal with |- context [onload r ?s] => destruct (onload r s) as [[[[]|e] s1] out1] end;
    reflexivity.
Qed.
Lemma fired_lines (ls : list text) k :
  fired (map (λ l, Call cbl (EvLine l k)) ls) = map Line ls.
Proof. induction ls as [|l ls IH]; [reflexivity|]. simpl. f_equal. exact IH. Qed.

Lemma refill q p fuel out st_ :
  (q ≤ Z.of_nat (length c))%Z →
  drive fuel [] (state (Some (slice c q (q + cs))) (q + cs) p (Some [])) None
  = (out, st_) →
  resume (drive fuel []) (_step (state None q p (Some [])))
  = (ReadAsText (slice c q (q + cs)) :: out, st_).
Proof.
  intros Hq H. rewrite (step_more _ _ Hq). cbn [resume handed].
  rewrite H. reflexivity.
Qed.

Lemma finish q p fuel :
  (Z.of_nat (length c) < q)%Z →
  resume (drive fuel []) (_step (state None q p (Some [])))
  = ([Call cbe EvEnd], Quiescent).
Proof.
  intros Hq. rewrite (step_end _ _ Hq). cbn [resume handed].
  rewrite drive_quiet by reflexivity. reflexivity.
Qed.

(** From a read in flight on, the consumer is given the runs of the
    content that was not read yet, the pending text being the run in
    progress, and then [end]; unless [match] meets a buffer of
    terminators only, which needs a blank line in the content. *)
Lemma reading_outcome (n : nat) : ∀ a p,
  (Z.to_nat (len - a) < n)%nat → (0 ≤ a)%Z →
  CR_free (drop (Z.to_nat a) c) → term_free p →
  ∃ fuel out st_,
    drive fuel [] (inflight a p) None = (out, st_) ∧
    ((st_ = Quiescent ∧
      fired out = map Line (runs p (drop (Z.to_nat a) c)) ++ [End]) ∨
     (st_ = Thrown TypeError ∧
      ¬ blank_free (is_empty p) (drop (Z.to_nat a) c))).
Proof.
  induction n as [|n IH]; intros a p Hn Ha Hcr Hp; [lia|].
  rewrite (slice_drop c a cs Ha cs_pos) in *.
  unfold reading.
  set (r := slice c a (a + cs)) in *.
  set (rest := drop (Z.to_nat (a + cs)) c) in *.
  apply Forall_app in Hcr as [Hcr_r Hcr_rest].
  assert (Hp' : has_terminator p = false) by (apply has_terminator_false, Hp).
  assert (Hruns : runs [] (p ++ r) = runs p r) by (apply runs_term_free, Hp).
  destruct (has_terminator (p ++ r)) eqn:Ht.
  - (* the buffer holds a terminator *)
    assert (Hr : has_terminator r = true).
    { rewrite has_terminator_app, Hp' in Ht. exact Ht. }
    destruct (text_snoc r (has_terminator_not_nil r Hr)) as (r0 & ch & Er).
    assert (Hch : ch ≠ CR).
    { rewrite Er in Hcr_r. apply Forall_app in Hcr_r as [_ H].
      inversion H; assumption. }
    destruct (match_runs (p ++ r)) as [toks|] eqn:Hm.
    + assert (Htoks : runs p r = toks).
      { unfold match_runs in Hm. rewrite Hruns in Hm.
        destruct (runs p r); [discriminate | congruence]. }
      destruct (Z_le_gt_dec (a + cs) len) as [Hmore|Hlast].
      * destruct (ends_with_LF (p ++ r)) eqn:He.
        -- (* the chunk ends a line *)
           assert (Hterm : is_terminator ch = true).
           { rewrite Er, app_assoc, ends_with_LF_snoc in He.
             rewrite (CR_free_terminator _ Hch). exact He. }
           destruct (IH (a + cs)%Z []) as (fuel & out & st_ & Hd & Hres);
             [lia | lia | exact Hcr_rest | constructor |].
           exists (S (length toks + fuel)),
             (map (λ l, Call cbl (EvLine l StepK)) toks
                ++ ReadAsText (slice c (a + cs) (a + cs + cs)) :: out), st_.
           split.
           ++ rewrite drive_load, (onload_split_closed _ _ _ _ Ht Hmore He), Hm.
              apply drain, refill; assumption.
           ++ destruct Hres as [[-> Hf]|[-> Hb]]; [left|right]; split; try reflexivity.
              ** rewrite fired_app, fired_lines, fired_read, Hf. rewrite Er, <- app_assoc.
                 cbn [app]. rewrite runs_app_terminator by exact Hterm.
                 rewrite <- Er, Htoks, map_app, <- app_assoc. reflexivity.
              ** intros Hb'. apply Hb. apply blank_free_app in Hb'.
                 rewrite Er, last_snoc, Hterm in Hb'. exact Hb'.
        -- (* the chunk ends inside a line *)
           assert (Hterm : is_terminator ch = false).
           { rewrite Er, app_assoc, ends_with_LF_snoc in He.
             rewrite (CR_free_terminator _ Hch). exact He. }
           destruct (runs_open_end r0 p ch Hterm) as (init & open & E & Hne & Htf & Hb).
           rewrite <- Er, Htoks in E.
           destruct (IH (a + cs)%Z open) as (fuel & out & st_ & Hd & Hres);
             [lia | lia | exact Hcr_rest | exact (Htf Hp) |].
           exists (S (length init + fuel)),
             (map (λ l, Call cbl (EvLine l StepK)) init
                ++ ReadAsText (slice c (a + cs) (a + cs + cs)) :: out), st_.
           split.
           ++ rewrite drive_load, (onload_split_open _ _ _ _ _ Ht Hmore He Hm).
              rewrite E, last_snoc, removelast_last. cbn [default].
              apply drain, refill; assumption.
           ++ destruct Hres as [[-> Hf]|[-> Hb']]; [left|right]; split; try reflexivity.
              ** rewrite fired_app, fired_lines, fired_read, Hf. rewrite Er, <- app_assoc.
                 cbn [app]. rewrite Hb, map_app, <- app_assoc. reflexivity.
              ** intros Hb''. apply Hb'. apply blank_free_app in Hb''.
                 rewrite Er, last_snoc, Hterm in Hb''.
                 destruct open; [congruence | exact Hb''].
      * (* nothing is left to read *)
        assert (Hrest : rest = []) by (apply drop_past_end; lia).
        exists (S (length toks + 0)),
          (map (λ l, Call cbl (EvLine l StepK)) toks ++ [Call cbe EvEnd]), Quiescent.
        split.
        -- rewrite drive_load, (onload_split_last _ _ _ _ Ht), Hm by lia.
           apply drain, finish. lia.
        -- left. split; [reflexivity|].
           rewrite fired_app, fired_lines, Hrest, app_nil_r, Htoks. reflexivity.
    + (* [match] gives [null] *)
      destruct (onload_split_null (a + cs) p r (Some []) Ht Hm) as (s' & Hthrow).
      exists 1%nat, [], (Thrown TypeError). split.
      * rewrite drive_load, Hthrow. reflexivity.
      * right. split; [reflexivity|]. intros Hb.
        unfold match_runs in Hm. rewrite Hruns in Hm.
        destruct (runs p r) eqn:E; [|discriminate].
        apply runs_nil_inv in E as [-> Hall].
        destruct r as [|t r']; [discriminate|].
        inversion Hall as [|? ? Hterm_t _]; subst.
        simpl in Hb. rewrite Hterm_t in Hb. destruct Hb; discriminate.
  - (* the buffer holds no terminator *)
    assert (Hr : term_free r).
    { apply has_terminator_false. rewrite has_terminator_app in Ht.
      apply orb_false_iff in Ht as [_ Ht]. exact Ht. }
    rewrite (runs_term_free r p rest Hr).
    destruct (Z_le_gt_dec (a + cs) len) as [Hmore|Hlast].
    + destruct (IH (a + cs)%Z (p ++ r)) as (fuel & out & st_ & Hd & Hres);
        [lia | lia | exact Hcr_rest | apply term_free_app; assumption |].
      exists (S fuel), (ReadAsText (slice c (a + cs) (a + cs + cs)) :: out), st_.
      split.
      * rewrite drive_load, (onload_quiet_more _ _ _ _ Ht Hmore).
        cbn [resume handed]. fold (inflight (a + cs) (p ++ r)).
        rewrite Hd. reflexivity.
      * destruct Hres as [[-> Hf]|[-> Hb]]; [left|right]; split; try reflexivity.
        -- rewrite fired_read. exact Hf.
        -- intros Hb'. apply Hb. apply blank_free_app in Hb'.
           destruct r as [|ch r'] using rev_ind; [rewrite app_nil_r; exact Hb'|].
           rewrite last_snoc in Hb'.
           apply Forall_app in Hr as [_ Hr]. inversion Hr as [|? ? Hch _]; subst.
           rewrite Hch in Hb'. rewrite is_empty_app_r; [exact Hb' | ].
           destruct r'; discriminate.
    + assert (Hrest : rest = []) by (apply drop_past_end; lia).
      rewrite Hrest. cbn [runs].
      assert (Hcase : p ++ r = [] ∨ p ++ r ≠ [])
        by (destruct (p ++ r); [left | right]; congruence).
      destruct Hcase as [He|Hne].
      * exists 1%nat, [Call cbe EvEnd], Quiescent. split.
        -- rewrite drive_load, (onload_quiet_empty _ _ _ _) by (lia || assumption).
           cbn [resume handed]. rewrite drive_quiet by reflexivity. reflexivity.
        -- left. split; [reflexivity|]. rewrite He. reflexivity.
      * exists 2%nat, [Call cbl (EvLine (p ++ r) EndK); Call cbe EvEnd], Quiescent.
        split.
        -- rewrite drive_load, (onload_quiet_last _ _ _ _ Ht) by (lia || assumption).
           cbn [resume handed].
           rewrite (drive_input _ _ _ _ (Next EndK)) by reflexivity.
           unfold st. exec. rewrite end_bound. cbn [resume handed].
           rewrite drive_quiet by reflexivity. reflexivity.
        -- left. split; [reflexivity|].
           destruct (p ++ r); [congruence | reflexivity].
Qed.

End Session.

(** ** A whole session *)

Lemma bound_chunkSize (cs : Z) : (0 < cs)%Z → chunkSize (bound (Some cs)) = cs.
Proof. intros H. simpl. destruct (Z.eqb_spec cs 0); [lia | reflexivity]. Qed.

(** [read(file)] on a fresh instance puts the first slice in flight. *)
Lemma read_bound (cs : Z) (c : text) :
  (0 < cs)%Z →
  read (Some {| content := c |}) (bound (Some cs))
  = (Normal tt, reading cs c (events (bound (Some cs))) 0 [],
     [ReadAsText (slice c 0 (0 + cs))]).
Proof.
  intros H. unfold reading, st, bound, LineReader.
  destruct (Z.eqb_spec cs 0); [lia|]. reflexivity.
Qed.

(** With content free of ["\r"], a session either gives the consumer the
    runs of the content and then [end], or throws on a buffer of
    terminators only, which takes a blank line in the content.  (The
    texts are those of the embedding: those of the lines delivered when
    the content is [seven_bit].) *)
Lemma session_outcome (cs : Z) (c : text) :
  (0 < cs)%Z → CR_free c →
  ∃ n,
    (∀ fuel, n ≤ fuel →
       session fuel cs c = (map Line (runs [] c) ++ [End], Quiescent)) ∨
    ((∀ fuel, n ≤ fuel → snd (session fuel cs c) = Thrown TypeError) ∧
     ¬ blank_free true c).
Proof.
  intros Hcs Hcr.
  destruct (reading_outcome cs c (events (bound (Some cs))) line_cb end_cb Hcs
              eq_refl eq_refl (S (Z.to_nat (Z.of_nat (length c) - 0))) 0 [])
    as (n & out & st_ & Hd & Hres); [lia | lia | exact Hcr | constructor |].
  exists n.
  assert (Hrun : ∀ fuel, n ≤ fuel → st_ ≠ OutOfFuel →
            session fuel cs c = (fired out, st_)).
  { intros fuel Hle Hst. unfold session, run. rewrite (read_bound cs c Hcs).
    cbn [resume handed].
    rewrite (drive_fuel_mono _ _ _ _ _ _ fuel Hd Hst Hle). reflexivity. }
  destruct Hres as [[-> Hf]|[-> Hb]].
  - left. intros fuel Hle. rewrite Hrun, Hf by (assumption || discriminate).
    reflexivity.
  - right. split; [|exact Hb].
    intros fuel Hle. rewrite Hrun by (assumption || discriminate). reflexivity.
Qed.

(** ** Files made of terminated lines *)

Lemma term_free_CR_free (l : text) : term_free l → CR_free l.
Proof.
  intros H. eapply Forall_impl; [exact H|]. intros ch Hch ->. discriminate.
Qed.

Lemma terminated_CR_free (ls : list text) :
  Forall term_free ls → CR_free (terminated ls).
Proof.
  induction 1 as [|l ls Hl _ IH]; [constructor|].
  unfold terminated. simpl. rewrite <- app_assoc.
  apply Forall_app. split; [apply term_free_CR_free, Hl|].
  constructor; [discriminate | exact IH].
Qed.

Lemma runs_terminated (ls : list text) :
  Forall (λ l, term_free l ∧ l ≠ []) ls → runs [] (terminated ls) = ls.
Proof.
  induction 1 as [|l ls [Hl Hne] _ IH]; [reflexivity|].
  unfold terminated. simpl. rewrite <- app_assoc.
  rewrite runs_term_free by exact Hl. simpl.
  destruct l; [congruence|]. f_equal. exact IH.
Qed.

Lemma blank_free_term_free (l : text) : ∀ fresh x,
  term_free l → l ≠ [] → blank_free true x → blank_free fresh (l ++ LF :: x).
Proof.
  induction l as [|ch l IH]; intros fresh x Hl Hne Hx; [congruence|].
  inversion Hl as [|? ? Hch Hl']; subst. simpl. rewrite Hch.
  destruct l as [|d l'].
  - simpl. split; [reflexivity | exact Hx].
  - apply IH; [assumption | discriminate | assumption].
Qed.

Lemma terminated_blank_free (ls : list text) :
  Forall (λ l, term_free l ∧ l ≠ []) ls → blank_free true (terminated ls).
Proof.
  induction 1 as [|l ls [Hl Hne] _ IH]; [exact I|].
  unfold terminated. simpl. rewrite <- app_assoc.
  apply blank_free_term_free; assumption.
Qed.

(** C1, as amended: a file that is the concatenation of N lines, each
    non-empty, free of ["\r"] and ["\n"], made of characters of one byte,
    and each followed by ["\n"], read with any positive [chunkSize], fires
    exactly N [line] events, in the order of the file, each with the text
    of the line without its terminator, and then one [end] event. *)
Theorem terminated_lines_delivered (cs : Z) (ls : list text) :
  (0 < cs)%Z →
  Forall (λ l, term_free l ∧ l ≠ []) ls →
  Forall seven_bit ls →
  ∃ n, ∀ fuel, n ≤ fuel →
    session fuel cs (terminated ls) = (map Line ls ++ [End], Quiescent).
Proof.
  intros Hcs Hls _.
  assert (Htf : Forall term_free ls) by (eapply Forall_impl; [exact Hls | intros ? []; assumption]).
  destruct (session_outcome cs (terminated ls) Hcs (terminated_CR_free ls Htf))
    as (n & [Hok|[_ Hbad]]).
  - exists n. intros fuel Hle. rewrite (Hok fuel Hle), runs_terminated by exact Hls.
    reflexivity.
  - exfalso. apply Hbad, terminated_blank_free, Hls.
Qed.

Lemma terminated_lines_delivered_witness :
  ∃ n, ∀ fuel, n ≤ fuel →
    session fuel 2 (terminated [txt "ab"; txt "c"; txt "def"])
    = (map Line [txt "ab"; txt "c"; txt "def"] ++ [End], Quiescent).
Proof.
  apply (terminated_lines_delivered 2 [txt "ab"; txt "c"; txt "def"]).
  - lia.
  - repeat constructor; discriminate.
  - repeat constructor.
Defined.

(** C1, as stated, fails on a file with an empty line: ["a\n\nb\n"] is
    three lines, and only two [line] events fire; [match] drops the empty
    one. *)
Lemma empty_line_dropped :
  session 10 1024 (terminated [txt "a"; []; txt "b"])
  = ([Line (txt "a"); Line (txt "b"); End], Quiescent) ∧
  session 10 1024 (terminated [txt "a"; []; txt "b"])
  ≠ (map Line [txt "a"; []; txt "b"] ++ [End], Quiescent).
Proof. split; [vm_compute; reflexivity | vm_compute; discriminate]. Qed.

Lemma session_fuel_mono fuel fuel' cs c evs st_ :
  session fuel cs c = (evs, st_) → st_ ≠ OutOfFuel → fuel ≤ fuel' →
  session fuel' cs c = (evs, st_).
Proof.
  unfold session, run. intros H Hst Hle.
  destruct (resume (drive fuel []) _) as [out st'] eqn:E.
  inversion H; subst.
  rewrite (resume_fuel_mono _ fuel' _ _ _ _ E Hst Hle). reflexivity.
Qed.

(** ** The scenarios of the specification *)

(** C3: the content ["a\nbb\nccc"] read with [chunkSize = 3] by a consumer
    that acknowledges every line gives the lines ["a"], ["bb"], ["ccc"], in
    that order, and then one [end] event. *)
Theorem scenario_three_lines (fuel : nat) :
  6 ≤ fuel →
  session fuel 3 (txt "a" ++ LF :: txt "bb" ++ LF :: txt "ccc")
  = ([Line (txt "a"); Line (txt "bb"); Line (txt "ccc"); End], Quiescent).
Proof.
  intros H. apply (session_fuel_mono 6); [vm_compute; reflexivity | discriminate | exact H].
Qed.

Lemma scenario_three_lines_witness :
  session 6 3 (txt "a" ++ LF :: txt "bb" ++ LF :: txt "ccc")
  = ([Line (txt "a"); Line (txt "bb"); Line (txt "ccc"); End], Quiescent).
Proof. apply (scenario_three_lines 6). lia. Defined.

(** ** The end of the file *)

Lemma slice_at_end (c : text) (cs : Z) :
  (0 < cs)%Z → slice c (Z.of_nat (length c)) (Z.of_nat (length c) + cs) = [].
Proof.
  intros H. unfold slice.
  destruct (Z.ltb_spec (Z.of_nat (length c)) 0); [lia|].
  destruct (Z.ltb_spec (Z.of_nat (length c) + cs) 0); [lia|].
  rewrite Z.min_id, Z.min_r, Z.sub_diag by lia. reflexivity.
Qed.

Lemma slice_nil (a b : Z) : slice [] a b = [].
Proof. unfold slice. rewrite drop_nil. apply take_nil. Qed.

(** C9: a zero-byte file gives no [line] event and exactly one [end]
    event; and when [readPos] is exactly on [fileLength] with nothing
    pending, then, once the queued lines are acknowledged, one more read is
    asked, of an empty blob, whose result leads to [end] and to nothing
    else: the run is over, no further read is asked. *)
Theorem empty_read_ends (cs : Z) (c : text) (ev : gmap string callback)
    (cbl cbe : callback) (ls : list text) (fuel : nat) :
  (0 < cs)%Z → ev !! "line" = Some cbl → ev !! "end" = Some cbe →
  length ls + 2 ≤ fuel →
  session fuel cs [] = ([End], Quiescent) ∧
  drive fuel [] (st cs c ev None (Z.of_nat (length c)) [] (Some ls)) (Some StepK)
  = (map (λ l, Call cbl (EvLine l StepK)) ls ++ [ReadAsText []; Call cbe EvEnd],
     Quiescent).
Proof.
  intros Hcs Hline Hend Hfuel. split.
  - apply (session_fuel_mono 1); [|discriminate | lia].
    unfold session, run. rewrite (read_bound cs [] Hcs). cbn [resume handed].
    unfold reading. rewrite drive_load.
    rewrite (onload_quiet_empty cs [] (events (bound (Some cs))) end_cb eq_refl)
      by (try (simpl; lia); rewrite slice_nil; reflexivity).
    reflexivity.
  - apply (drive_fuel_mono (S (length ls + 1))); [|discriminate | lia].
    rewrite drive_acknowledge. apply (drain cs c ev cbl Hline).
    rewrite (step_more cs c ev) by lia.
    rewrite (slice_at_end c cs Hcs). cbn [resume handed]. rewrite drive_load.
    rewrite (onload_quiet_empty cs c ev cbe Hend) by (lia || reflexivity).
    reflexivity.
Qed.

Lemma empty_read_ends_witness :
  session 3 4 [] = ([End], Quiescent) ∧
  drive 3 [] (st 4 (txt "abc" ++ [LF]) (events (bound None)) None 4 []
                 (Some [txt "abc"]))
        (Some StepK)
  = (map (λ l, Call line_cb (EvLine l StepK)) [txt "abc"]
       ++ [ReadAsText []; Call end_cb EvEnd], Quiescent).
Proof.
  apply (empty_read_ends 4 (txt "abc" ++ [LF]) (events (bound None))
           line_cb end_cb [txt "abc"] 3).
  - lia.
  - reflexivity.
  - reflexivity.
  - simpl. lia.
Defined.

(** ** Read failures *)

(** C8: when the read in flight fails, the [error] callback is called with
    the cause of the failure, and that is all: the run is quiescent, with
    no further read asked and no [line] event, whatever is left of the
    file. *)
Theorem read_failure_reported (fuel : nat) (source : list (option DOMError))
    (s : internals) (owed : option continuation) (blob : text)
    (cause : DOMError) (cb : callback) :
  reader s = Some blob → events s !! "error" = Some cb →
  drive (S fuel) (Some cause :: source) s owed
  = ([Call cb (EvError cause)], Quiescent).
Proof.
  intros Hr He. destruct s as [rd cs ev cr f fl q p ls]. simpl in Hr, He. subst rd.
  rewrite (drive_input _ _ _ _ (Fail cause)) by reflexivity.
  exec. rewrite He. cbn [resume handed].
  rewrite drive_quiet by reflexivity. reflexivity.
Qed.

Lemma read_failure_reported_witness :
  drive 1 [Some "NotReadableError"]
        (st 3 (txt "abcdef") (events (bound None)) (Some (txt "def")) 6 [] (Some []))
        None
  = ([Call error_cb (EvError "NotReadableError")], Quiescent).
Proof.
  apply (read_failure_reported 0 [] _ None (txt "def") "NotReadableError" error_cb);
    reflexivity.
Defined.

(** The scenario of the specification: the second read fails. *)
Example failure_on_second_read :
  run 10 [None; Some "NotReadableError"] (bound (Some 3%Z))
      {| content := txt "a" ++ LF :: txt "bb" ++ LF :: txt "ccc" |}
  = ([ReadAsText (txt "a" ++ LF :: txt "b");
      Call line_cb (EvLine (txt "a") StepK);
      ReadAsText (txt "b" ++ LF :: txt "c");
      Call error_cb (EvError "NotReadableError")], Quiescent).
Proof. vm_compute. reflexivity. Qed.

(** ** One instance, several files *)

(** [read(file)] forgets the previous file, position, buffer and queue. *)
Lemma read_file_state (s : internals) (f : File) :
  reader s = None →
  read (Some f) s
  = (Normal tt,
     {| reader := Some (slice (content f) 0 (0 + chunkSize s));
        chunkSize := chunkSize s; events := events s; canRead := canRead s;
        file := Some f; fileLength := File_size f;
        readPos := 0 + chunkSize s; chunk := []; lines := Some [] |},
     [ReadAsText (slice (content f) 0 (0 + chunkSize s))]).
Proof.
  intros Hr. destruct s as [rd cs ev cr f0 fl q p ls]. simpl in Hr. subst rd.
  reflexivity.
Qed.

(** C10, as amended: [read(file)] sets [readPos] back to 0 (and then moves
    it by one [chunkSize]) and empties the pending buffer and the queue; it
    leaves [canRead] as it is.  So an instance whose last session ran to
    its end without [abort] reads a new file exactly as a fresh instance
    with the same [chunkSize] and the same callbacks does, whatever the
    Chunk Source does. *)
Theorem reuse_after_end (s : internals) (f : File) (fuel : nat)
    (source : list (option DOMError)) :
  reader s = None → canRead s = true → chunkSize s ≠ 0%Z →
  (∃ s1 out, read (Some f) s = (Normal tt, s1, out) ∧
     readPos s1 = (0 + chunkSize s)%Z ∧ chunk s1 = [] ∧ lines s1 = Some [] ∧
     file s1 = Some f ∧ fileLength s1 = File_size f) ∧
  run fuel source s f
  = run fuel source (set_events (events s) (LineReader (Some (chunkSize s)))) f.
Proof.
  intros Hr Hc Hcs. split.
  - eexists _, _. split; [apply (read_file_state s f Hr)|]. repeat split.
  - unfold run. rewrite (read_file_state s f Hr).
    rewrite read_file_state by reflexivity.
    cbn [chunkSize events canRead set_events LineReader].
    destruct (Z.eqb_spec (chunkSize s) 0); [contradiction|].
    rewrite Hc. reflexivity.
Qed.

Lemma reuse_after_end_witness :
  (∃ s1 out,
     read (Some {| content := terminated [txt "x"; txt "y"] |}) ended_instance
     = (Normal tt, s1, out) ∧
     readPos s1 = (0 + chunkSize ended_instance)%Z ∧ chunk s1 = [] ∧
     lines s1 = Some [] ∧
     file s1 = Some {| content := terminated [txt "x"; txt "y"] |} ∧
     fileLength s1 = File_size {| content := terminated [txt "x"; txt "y"] |}) ∧
  run 10 [] ended_instance {| content := terminated [txt "x"; txt "y"] |}
  = run 10 []
      (set_events (events ended_instance)
         (LineReader (Some (chunkSize ended_instance))))
      {| content := terminated [txt "x"; txt "y"] |}.
Proof.
  apply (reuse_after_end ended_instance
           {| content := terminated [txt "x"; txt "y"] |} 10 []).
  - reflexivity.
  - reflexivity.
  - vm_compute. discriminate.
Defined.

(** C10, as stated, fails after [abort]: nothing sets [canRead] again, and
    the next file gets [end] and none of its lines, where a fresh instance
    delivers both. *)
Lemma reuse_after_abort_differs :
  transcript [Read (Some {| content := terminated [txt "a"; txt "b"] |});
              Load; Abort; Next StepK] (bound None)
  = ([ReadAsText (terminated [txt "a"; txt "b"]);
      Call line_cb (EvLine (txt "a") StepK); Call end_cb EvEnd], None) ∧
  (let (out, st_) := run 10 [] aborted_instance
                         {| content := terminated [txt "x"; txt "y"] |}
   in (fired out, st_)) = ([End], Quiescent) ∧
  session 10 1024 (terminated [txt "x"; txt "y"])
  = ([Line (txt "x"); Line (txt "y"); End], Quiescent) ∧
  run 10 [] aborted_instance {| content := terminated [txt "x"; txt "y"] |}
  ≠ run 10 [] (bound None) {| content := terminated [txt "x"; txt "y"] |}.
Proof. repeat split; vm_compute; (reflexivity || discriminate). Qed.

(** ** Without blank lines and without ["\r"] *)

(** X11: where no line is blank, no ["\r"] occurs and every character is
    one byte, the chunk size does not matter: every positive chunk size
    gives the runs of the content and then [end]. *)
Lemma chunk_size_irrelevant (cs1 cs2 : Z) (c : text) :
  (0 < cs1)%Z → (0 < cs2)%Z → CR_free c → blank_free true c → seven_bit c →
  ∃ n, ∀ fuel, n ≤ fuel →
    session fuel cs1 c = (map Line (runs [] c) ++ [End], Quiescent) ∧
    session fuel cs2 c = session fuel cs1 c.
Proof.
  intros H1 H2 Hcr Hb _.
  destruct (session_outcome cs1 c H1 Hcr) as (n1 & [Hok1|[_ Hbad]]); [|contradiction].
  destruct (session_outcome cs2 c H2 Hcr) as (n2 & [Hok2|[_ Hbad]]); [|contradiction].
  exists (n1 `max` n2). intros fuel Hle.
  rewrite Hok1, Hok2 by lia. split; reflexivity.
Qed.

(** X12: there, the text after the last ["\n"] is the last line
    delivered, and [end] follows it. *)
Lemma final_fragment_delivered (cs : Z) (body frag : text) :
  (0 < cs)%Z → CR_free (body ++ frag) → blank_free true (body ++ frag) →
  seven_bit (body ++ frag) →
  body = [] ∨ (∃ b, body = b ++ [LF]) →
  term_free frag → frag ≠ [] →
  ∃ n, ∀ fuel, n ≤ fuel →
    session fuel cs (body ++ frag)
    = (map Line (runs [] body) ++ [Line frag; End], Quiescent).
Proof.
  intros Hcs Hcr Hb _ Hbody Hfrag Hne.
  destruct (session_outcome cs (body ++ frag) Hcs Hcr) as (n & [Hok|[_ Hbad]]);
    [|contradiction].
  exists n. intros fuel Hle. rewrite (Hok fuel Hle). f_equal.
  assert (Hf : runs [] frag = [frag]).
  { pose proof (runs_term_free frag [] [] Hfrag) as Hr. rewrite app_nil_r in Hr.
    rewrite Hr. destruct frag; [congruence | reflexivity]. }
  destruct Hbody as [->|[b ->]].
  - simpl. rewrite Hf. reflexivity.
  - rewrite <- app_assoc. cbn [app].
    rewrite runs_app_terminator by reflexivity.
    rewrite Hf, map_app, <- app_assoc. reflexivity.
Qed.

(** ** Where the code departs from the specification *)

(** C5: [abort] while the only read is in flight; the file has no
    terminator, and [onload] emits the pending text as a [line] event
    without looking at [canRead]. *)
Theorem line_fires_after_abort :
  transcript [Read (Some {| content := txt "abc" |}); Abort; Load] (bound None)
  = ([ReadAsText (txt "abc"); Call line_cb (EvLine (txt "abc") EndK)], None) ∧
  canRead (state_after [Read (Some {| content := txt "abc" |}); Abort]
                       (bound None)) = false.
Proof. split; vm_compute; reflexivity. Qed.

(** C7: on the file ["\n"] the buffer holds a terminator and [match] finds
    no run; [null] is stored in [lines] and [_step] throws on
    [lines.length].  And [read()] on an instance that was never given a
    file throws on [file.slice]. *)
Theorem handler_throws_on_terminators_only :
  (∀ fuel, session (S fuel) 1024 [LF] = ([], Thrown TypeError)) ∧
  transcript [Read None] (bound None) = ([], Some TypeError).
Proof.
  split; [|vm_compute; reflexivity].
  intros fuel. apply (session_fuel_mono 1); [vm_compute; reflexivity | discriminate | lia].
Qed.

(** C2: ["ab\rcd\n"] read three bytes at a time loses the ["\r"] that ends
    the first chunk and gives one line, where the whole file as one chunk
    gives two; ["a\n\n\nb"] read two bytes at a time throws on the chunk
    ["\n\n"] after its first line, where the whole file as one chunk gives
    two lines and [end]. *)
Theorem chunk_boundaries_change_lines :
  session 10 3 (txt "ab" ++ CR :: txt "cd" ++ [LF])
  = ([Line (txt "abcd"); End], Quiescent) ∧
  session 10 6 (txt "ab" ++ CR :: txt "cd" ++ [LF])
  = ([Line (txt "ab"); Line (txt "cd"); End], Quiescent) ∧
  session 10 2 (txt "a" ++ LF :: LF :: LF :: txt "b")
  = ([Line (txt "a")], Thrown TypeError) ∧
  session 10 5 (txt "a" ++ LF :: LF :: LF :: txt "b")
  = ([Line (txt "a"); Line (txt "b"); End], Quiescent).
Proof. repeat split; vm_compute; reflexivity. Qed.

(** C4: ["\na"] does not end with a terminator; read one byte at a time,
    the first chunk is ["\n"], the handler throws, and neither the final
    fragment ["a"] nor [end] is ever delivered. *)
Theorem final_fragment_lost :
  ∀ fuel, session (S fuel) 1 (LF :: txt "a") = ([], Thrown TypeError).
Proof.
  intros fuel. apply (session_fuel_mono 1); [vm_compute; reflexivity | discriminate | lia].
Qed.

(** ** Lines hold no terminator *)

(** The methods unfolded, [_step] left as it is. *)
Ltac exec_to_step :=
  cbv [deliver onload onerror read abort on _emit _hasMoreData
       readAsText pop_into_chunk
       mbind M_bind mret M_ret get modify act throw event_name
       set_reader set_events set_canRead set_readPos set_chunk set_lines set_file
       reader chunkSize events canRead file fileLength readPos chunk lines
       content File_size].












(** ** The whole file as one chunk *)

Lemma slice_whole (c : text) (cs : Z) :
  (Z.of_nat (length c) < cs)%Z → slice c 0 (0 + cs) = c.
Proof.
  intros H. pose proof (slice_drop c 0 cs ltac:(lia) ltac:(lia)) as E.
  rewrite (drop_ge c (Z.to_nat (0 + cs))), app_nil_r in E by lia.
  symmetry. exact E.
Qed.





Example pieces_of_mixed_terminators :
  pieces (txt "a" ++ CR :: txt "bc" ++ CR :: LF :: CR :: txt "d")
  = [txt "a"; txt "bc"; txt "d"].
Proof. reflexivity. Qed.




(** ** The earlier version and ["\r"] *)

(** The earlier version splits at ["\n"] only and keeps the ["\r"] of a
    ["\r\n"] in the line. *)
Lemma Variant_keeps_CR_in_line :
  Variant.transcript [Read None; Load; Next StepK]
    (set_events (<["line" := line_cb]> ∅)
       (Variant.LineReader {| content := txt "a" ++ CR :: LF :: txt "b" ++ [LF] |}))
  = ([ReadAsText (txt "a" ++ CR :: LF :: txt "b" ++ [LF]);
      Call line_cb (EvLine (txt "a" ++ [CR]) StepK);
      Call line_cb (EvLine (txt "b") StepK)], None).
Proof. vm_compute. reflexivity. Qed.

(** With a ["\r"] and no ["\n"], its [onload] does nothing: no line is
    delivered and no read is asked. *)
Lemma Variant_lone_CR_not_delivered :
  Variant.transcript [Read None; Load]
    (set_events (<["line" := line_cb]> ∅)
       (Variant.LineReader {| content := txt "a" ++ CR :: txt "b" |}))
  = ([ReadAsText (txt "a" ++ CR :: txt "b")], None).
Proof. vm_compute. reflexivity. Qed.

(** * More of the engine *)

(** ** What is read and what is delivered *)

Lemma kept_app (a b : text) : kept (a ++ b) = kept a ++ kept b.
Proof. apply List.filter_app. Qed.

Lemma kept_term_free (s : text) : term_free s → kept s = s.
Proof.
  induction 1 as [|ch s Hch _ IH]; [reflexivity|].
  simpl. rewrite Hch. simpl. f_equal. exact IH.
Qed.

(** The runs of a text, put together, are the text without its
    terminators. *)
Lemma concat_runs (s : text) : ∀ cur, concat (runs cur s) = cur ++ kept s.
Proof.
  induction s as [|ch s IH]; intros cur; simpl.
  - destruct cur; simpl; rewrite ?app_nil_r; reflexivity.
  - destruct (is_terminator ch); simpl.
    + destruct cur; simpl; rewrite IH; reflexivity.
    + rewrite IH, <- app_assoc. reflexivity.
Qed.

Lemma requested_app (a b : list action) :
  requested (a ++ b) = requested a ++ requested b.
Proof. apply omap_app. Qed.

Lemma requested_calls (cb : callback) (k : continuation) (ls : list text) :
  requested (map (λ l, Call cb (EvLine l k)) ls) = [].
Proof. induction ls as [|l ls IH]; [reflexivity | exact IH]. Qed.

Lemma lines_of_lines (ls : list text) : lines_of (map Line ls ++ [End]) = ls.
Proof. induction ls as [|l ls IH]; [reflexivity|]. simpl. f_equal. exact IH. Qed.

Lemma reads_from_past (c : text) (cs : Z) (n : nat) (q : Z) :
  (Z.of_nat (length c) < q)%Z → reads_from c cs n q = [].
Proof.
  intros H. destruct n; [reflexivity|]. simpl.
  destruct (Z.leb_spec q (Z.of_nat (length c))); [lia | reflexivity].
Qed.

Lemma reads_from_next (c : text) (cs : Z) (n : nat) (q : Z) :
  (q ≤ Z.of_nat (length c))%Z →
  reads_from c cs (S n) q = slice c q (q + cs) :: reads_from c cs n (q + cs).
Proof.
  intros H. simpl.
  destruct (Z.leb_spec q (Z.of_nat (length c))); [reflexivity | lia].
Qed.

Section Cover.

Variables (cs : Z) (c : text) (ev : gmap string callback) (cbl cbe : callback).
Hypothesis cs_pos : (0 < cs)%Z.
Hypothesis line_bound : ev !! "line" = Some cbl.
Hypothesis end_bound : ev !! "end" = Some cbe.

Local Abbreviation state := (st cs c ev).
Local Abbreviation inflight := (reading cs c ev).
Local Abbreviation len := (Z.of_nat (length c)).
Local Abbreviation calls := (map (λ l, Call cbl (EvLine l StepK))).

(** From a read in flight on, whatever the content: the run stops, by
    [end] or by an exception; the lines delivered are neither empty nor
    hold a terminator; and when the run ends, the lines put together are
    the pending text and the text not yet read, without the terminators,
    and the reads asked are the slices that follow, up to the end of the
    file. *)
Lemma reading_stops (n : nat) : ∀ a p,
  (Z.to_nat (len - a) < n)%nat → (0 ≤ a)%Z → term_free p →
  ∃ fuel out st_ ls,
    drive fuel [] (inflight a p) None = (out, st_) ∧
    Forall (λ l, term_free l ∧ l ≠ []) ls ∧
    ((st_ = Quiescent ∧ fired out = map Line ls ++ [End] ∧
      concat ls = p ++ kept (drop (Z.to_nat a) c) ∧
      ∀ m, (Z.to_nat (len - a) < m)%nat →
           requested out = reads_from c cs m (a + cs)) ∨
     (st_ = Thrown TypeError ∧ fired out = map Line ls)).
Proof.
  induction n as [|n IH]; intros a p Hn Ha Hp; [lia|].
  rewrite (slice_drop c a cs Ha cs_pos).
  unfold reading.
  set (r := slice c a (a + cs)) in *.
  set (rest := drop (Z.to_nat (a + cs)) c) in *.
  assert (Hkp : kept p = p) by (apply kept_term_free, Hp).
  destruct (has_terminator (p ++ r)) eqn:Ht.
  - destruct (match_runs (p ++ r)) as [toks|] eqn:Hm.
    + assert (Htoks : runs [] (p ++ r) = toks).
      { unfold match_runs in Hm. destruct (runs [] (p ++ r)); [discriminate | congruence]. }
      assert (Hok : Forall (λ l, term_free l ∧ l ≠ []) toks).
      { rewrite <- Htoks. apply runs_term_free_elements. constructor. }
      assert (Hcat : concat toks = p ++ kept r).
      { rewrite <- Htoks, concat_runs, kept_app, Hkp. reflexivity. }
      destruct (Z_le_gt_dec (a + cs) len) as [Hmore|Hlast].
      * destruct (ends_with_LF (p ++ r)) eqn:He.
        -- destruct (IH (a + cs)%Z []) as (fuel & out & st_ & ls & Hd & Hls & Hres);
             [lia | lia | constructor |].
           exists (S (length toks + fuel)),
             (calls toks ++ ReadAsText (slice c (a + cs) (a + cs + cs)) :: out),
             st_, (toks ++ ls).
           split; [|split; [apply Forall_app; split; assumption|]].
           ++ rewrite drive_load, (onload_split_closed cs c ev cbl line_bound _ _ _ _ Ht Hmore He), Hm.
              apply (drain cs c ev cbl line_bound), refill; assumption.
           ++ destruct Hres as [(-> & Hf & Hc & Hq)|(-> & Hf)]; [left|right];
                repeat split;
                try (rewrite fired_app, (fired_lines cbl), fired_read, Hf, map_app,
                       <- ?app_assoc; reflexivity).
              ** rewrite concat_app, Hcat, Hc, kept_app, <- app_assoc. reflexivity.
              ** intros m Hmm. destruct m as [|m]; [lia|].
                 rewrite reads_from_next by exact Hmore.
                 rewrite requested_app, requested_calls. simpl. f_equal.
                 apply Hq. lia.
        -- destruct (exists_last (l := toks)) as (init & open & Etoks).
           { intros ->. apply (match_runs_not_empty _ Hm). }
           rewrite Etoks in Hok, Hcat, Hm. clear Htoks Etoks toks.
           apply Forall_app in Hok as [Hinit Hopen].
           inversion Hopen as [|? ? [Hotf Hone] _]; subst.
           destruct (IH (a + cs)%Z open) as (fuel & out & st_ & ls & Hd & Hls & Hres);
             [lia | lia | exact Hotf |].
           exists (S (length init + fuel)),
             (calls init ++ ReadAsText (slice c (a + cs) (a + cs + cs)) :: out),
             st_, (init ++ ls).
           split; [|split; [apply Forall_app; split; assumption|]].
           ++ rewrite drive_load, (onload_split_open cs c ev cbl line_bound _ _ _ _ _ Ht Hmore He Hm).
              rewrite last_snoc, removelast_last. cbn [default].
              apply (drain cs c ev cbl line_bound), refill; assumption.
           ++ rewrite concat_app in Hcat. simpl in Hcat. rewrite app_nil_r in Hcat.
              destruct Hres as [(-> & Hf & Hc & Hq)|(-> & Hf)]; [left|right];
                repeat split;
                try (rewrite fired_app, (fired_lines cbl), fired_read, Hf, map_app,
                       <- ?app_assoc; reflexivity).
              ** rewrite concat_app, Hc, app_assoc, Hcat, kept_app, <- app_assoc.
                 reflexivity.
              ** intros m Hmm. destruct m as [|m]; [lia|].
                 rewrite reads_from_next by exact Hmore.
                 rewrite requested_app, requested_calls. simpl. f_equal.
                 apply Hq. lia.
      * assert (Hrest : rest = []) by (apply drop_past_end; lia).
        exists (S (length toks + 0)), (calls toks ++ [Call cbe EvEnd]), Quiescent, toks.
        split; [|split; [exact Hok|]].
        -- rewrite drive_load, (onload_split_last cs c ev cbl cbe line_bound end_bound _ _ _ _ Ht), Hm by lia.
           apply (drain cs c ev cbl line_bound), (finish cs c ev cbe end_bound). lia.
        -- left. repeat split.
           ++ rewrite fired_app, (fired_lines cbl). reflexivity.
           ++ rewrite Hcat, Hrest, app_nil_r. reflexivity.
           ++ intros m _. rewrite reads_from_past by lia.
              rewrite requested_app, requested_calls. reflexivity.
    + destruct (onload_split_null cs c ev (a + cs) p r (Some []) Ht Hm) as (s' & Hthrow).
      exists 1%nat, [], (Thrown TypeError), []. split; [|split; [constructor|]].
      * rewrite drive_load, Hthrow. reflexivity.
      * right. split; reflexivity.
  - assert (Hr : term_free r).
    { apply has_terminator_false. rewrite has_terminator_app in Ht.
      apply orb_false_iff in Ht as [_ Ht]. exact Ht. }
    destruct (Z_le_gt_dec (a + cs) len) as [Hmore|Hlast].
    + destruct (IH (a + cs)%Z (p ++ r)) as (fuel & out & st_ & ls & Hd & Hls & Hres);
        [lia | lia | apply term_free_app; assumption |].
      exists (S fuel), (ReadAsText (slice c (a + cs) (a + cs + cs)) :: out), st_, ls.
      split; [|split; [exact Hls|]].
      * rewrite drive_load, (onload_quiet_more cs c ev _ _ _ _ Ht Hmore).
        cbn [resume handed]. fold (inflight (a + cs) (p ++ r)).
        rewrite Hd. reflexivity.
      * destruct Hres as [(-> & Hf & Hc & Hq)|(-> & Hf)]; [left|right];
          repeat split; try (rewrite fired_read; exact Hf).
        -- rewrite Hc, kept_app, (kept_term_free r Hr), <- app_assoc. reflexivity.
        -- intros m Hmm. destruct m as [|m]; [lia|].
           rewrite reads_from_next by exact Hmore. simpl. f_equal. apply Hq. lia.
    + assert (Hrest : rest = []) by (apply drop_past_end; lia).
      rewrite Hrest, app_nil_r, (kept_term_free r Hr).
      assert (Hcase : p ++ r = [] ∨ p ++ r ≠ [])
        by (destruct (p ++ r); [left | right]; congruence).
      destruct Hcase as [He|Hne].
      * exists 1%nat, [Call cbe EvEnd], Quiescent, []. split; [|split; [constructor|]].
        -- rewrite drive_load, (onload_quiet_empty cs c ev cbe end_bound) by (lia || assumption).
           cbn [resume handed]. rewrite drive_quiet by reflexivity. reflexivity.
        -- left. repeat split; [rewrite He; reflexivity|].
           intros m _. rewrite reads_from_past by lia. reflexivity.
      * exists 2%nat, [Call cbl (EvLine (p ++ r) EndK); Call cbe EvEnd], Quiescent, [p ++ r].
        split; [|split].
        -- rewrite drive_load, (onload_quiet_last cs c ev cbl line_bound _ _ _ _ Ht) by (lia || assumption).
           cbn [resume handed].
           rewrite (drive_input _ _ _ _ (Next EndK)) by reflexivity.
           unfold st. exec. rewrite end_bound. cbn [resume handed].
           rewrite drive_quiet by reflexivity. reflexivity.
        -- constructor; [|constructor]. split; [apply term_free_app; assumption | exact Hne].
        -- left. repeat split; [simpl; rewrite app_nil_r; reflexivity|].
           intros m _. rewrite reads_from_past by lia. reflexivity.
Qed.

End Cover.

(** The slices asked, put together, are the file. *)
Lemma concat_reads_from (c : text) (cs : Z) (n : nat) : ∀ q,
  (0 < cs)%Z → (0 ≤ q)%Z → (Z.to_nat (Z.of_nat (length c) - q) < n)%nat →
  concat (reads_from c cs n q) = drop (Z.to_nat q) c.
Proof.
  induction n as [|n IH]; intros q Hcs Hq Hn; [lia|].
  destruct (Z_le_gt_dec q (Z.of_nat (length c))) as [Hle|Hgt].
  - rewrite reads_from_next by exact Hle. simpl.
    rewrite (slice_drop c q cs Hq Hcs). f_equal.
    destruct (Z_le_gt_dec (q + cs) (Z.of_nat (length c))).
    + apply IH; lia.
    + rewrite reads_from_past by lia. rewrite drop_past_end by lia. reflexivity.
  - rewrite reads_from_past by lia. rewrite drop_past_end by lia. reflexivity.
Qed.

(** There is one of them for every multiple of the chunk size up to the
    length of the file, the length included. *)
Lemma length_reads_from (c : text) (cs : Z) (n : nat) : ∀ q,
  (0 < cs)%Z → (0 ≤ q ≤ Z.of_nat (length c))%Z →
  (Z.to_nat (Z.of_nat (length c) - q) < n)%nat →
  length (reads_from c cs n q) = S (Z.to_nat ((Z.of_nat (length c) - q) / cs)).
Proof.
  induction n as [|n IH]; intros q Hcs Hq Hn; [lia|].
  rewrite reads_from_next by lia. simpl. f_equal.
  destruct (Z_le_gt_dec (q + cs) (Z.of_nat (length c))) as [Hle|Hgt].
  - rewrite IH by lia.
    replace (Z.of_nat (length c) - q)%Z
      with (Z.of_nat (length c) - (q + cs) + 1 * cs)%Z by lia.
    rewrite Z.div_add by lia.
    pose proof (Z.div_pos (Z.of_nat (length c) - (q + cs)) cs ltac:(lia) Hcs).
    lia.
  - rewrite reads_from_past by lia. rewrite Z.div_small by lia. reflexivity.
Qed.

(** A session on a bound instance, from [read(file)] on.  (What is said
    of [concat ls] is of the texts of the embedding: of the lines
    delivered when the content is [seven_bit].) *)
Lemma run_stops (cs : Z) (c : text) :
  (0 < cs)%Z →
  ∃ n out st_ ls,
    (∀ fuel, n ≤ fuel →
       run fuel [] (bound (Some cs)) {| content := c |} = (out, st_)) ∧
    Forall (λ l, term_free l ∧ l ≠ []) ls ∧
    ((st_ = Quiescent ∧ fired out = map Line ls ++ [End] ∧
      concat ls = kept c ∧ requested out = reads c cs) ∨
     (st_ = Thrown TypeError ∧ fired out = map Line ls)).
Proof.
  intros Hcs.
  destruct (reading_stops cs c (events (bound (Some cs))) line_cb end_cb Hcs
              eq_refl eq_refl (S (Z.to_nat (Z.of_nat (length c) - 0))) 0 [])
    as (n & out & st_ & ls & Hd & Hls & Hres); [lia | lia | constructor |].
  exists n, (ReadAsText (slice c 0 (0 + cs)) :: out), st_, ls.
  split; [|split; [exact Hls|]].
  - intros fuel Hle. unfold run. rewrite (read_bound cs c Hcs). cbn [resume handed].
    rewrite (drive_fuel_mono _ _ _ _ _ _ fuel Hd) by
      (assumption || (destruct Hres as [(-> & _)|(-> & _)]; discriminate)).
    reflexivity.
  - destruct Hres as [(-> & Hf & Hc & Hq)|(-> & Hf)]; [left|right];
      repeat split; try (rewrite fired_read; exact Hf).
    + exact Hc.
    + unfold reads. replace (length c + 2)%nat with (S (length c + 1)) by lia.
      rewrite reads_from_next by lia. simpl. f_equal. apply Hq. lia.
Qed.

(** X1: with a positive chunk size a session always stops, whatever the
    content: it fires its [line] events and then exactly one [end] event,
    the last event of the run, or it throws [TypeError] after its [line]
    events, without an [end] event. *)
Theorem session_stops (cs : Z) (c : text) :
  (0 < cs)%Z →
  ∃ n ls, ∀ fuel, n ≤ fuel →
    session fuel cs c = (map Line ls ++ [End], Quiescent) ∨
    session fuel cs c = (map Line ls, Thrown TypeError).
Proof.
  intros Hcs. destruct (run_stops cs c Hcs) as (n & out & st_ & ls & Hrun & _ & Hres).
  exists n, ls. intros fuel Hle. unfold session. rewrite (Hrun fuel Hle).
  destruct Hres as [(-> & Hf & _)|(-> & Hf)]; [left|right]; rewrite Hf; reflexivity.
Qed.

Lemma session_stops_witness :
  ∃ n ls, ∀ fuel, n ≤ fuel →
    session fuel 2 (txt "ab" ++ CR :: LF :: txt "c")
    = (map Line ls ++ [End], Quiescent) ∨
    session fuel 2 (txt "ab" ++ CR :: LF :: txt "c")
    = (map Line ls, Thrown TypeError).
Proof. apply (session_stops 2 (txt "ab" ++ CR :: LF :: txt "c")). lia. Defined.

(** What a session that has ended holds, at any fuel that lets it end. *)
Lemma run_ended (cs : Z) (c : text) (fuel : nat) (out : list action) :
  (0 < cs)%Z →
  run fuel [] (bound (Some cs)) {| content := c |} = (out, Quiescent) →
  ∃ ls, Forall (λ l, term_free l ∧ l ≠ []) ls ∧
        fired out = map Line ls ++ [End] ∧
        concat ls = kept c ∧ requested out = reads c cs.
Proof.
  intros Hcs Hq.
  destruct (run_stops cs c Hcs) as (n & out' & st_ & ls & Hrun & Hls & Hres).
  assert (E : (out', st_) = (out, Quiescent)).
  { rewrite <- (Hrun (fuel `max` n)) by lia. unfold run in *.
    apply (resume_fuel_mono fuel); [exact Hq | discriminate | lia]. }
  inversion E; subst.
  destruct Hres as [(_ & Hf & Hc & Hr)|(? & _)]; [|discriminate].
  exists ls. repeat split; assumption.
Qed.

(** X2: when a session on content of one-byte characters ends, the lines
    it delivered, put together, are the content of the file without its
    ["\r"] and ["\n"]: whatever the chunk size, no other character is lost,
    repeated or moved. *)
Theorem characters_conserved (cs : Z) (c : text) (fuel : nat) (evs : list event) :
  (0 < cs)%Z → seven_bit c →
  session fuel cs c = (evs, Quiescent) →
  concat (lines_of evs) = kept c.
Proof.
  intros Hcs _ H. unfold session in H.
  destruct (run fuel [] (bound (Some cs)) {| content := c |}) as [out st_] eqn:E.
  inversion H; subst.
  destruct (run_ended cs c fuel out Hcs E) as (ls & _ & Hf & Hc & _).
  rewrite Hf, lines_of_lines. exact Hc.
Qed.

Lemma characters_conserved_witness :
  concat (lines_of [Line (txt "abcd"); End])
  = kept (txt "ab" ++ CR :: txt "cd" ++ [LF]).
Proof.
  apply (characters_conserved 3 (txt "ab" ++ CR :: txt "cd" ++ [LF]) 10).
  - lia.
  - repeat constructor.
  - vm_compute. reflexivity.
Defined.

(** X3: a session that ends has asked for the slices of [chunkSize] bytes
    at 0, [chunkSize], 2 [chunkSize], ... up to the length of the file,
    each once and in this order: put together they are the file, and there
    are [length / chunkSize + 1] of them, so that a file whose length is a
    multiple of the chunk size costs one read of an empty blob. *)
Theorem requests_cover_file (cs : Z) (c : text) (fuel : nat) (out : list action) :
  (0 < cs)%Z →
  run fuel [] (bound (Some cs)) {| content := c |} = (out, Quiescent) →
  requested out = reads c cs ∧
  concat (requested out) = c ∧
  length (requested out) = S (Z.to_nat (Z.of_nat (length c) / cs)).
Proof.
  intros Hcs H. destruct (run_ended cs c fuel out Hcs H) as (ls & _ & _ & _ & Hr).
  rewrite Hr. unfold reads. repeat split.
  - rewrite concat_reads_from by lia. reflexivity.
  - rewrite length_reads_from by lia. rewrite Z.sub_0_r. reflexivity.
Qed.

Lemma requests_cover_file_witness :
  requested [ReadAsText (txt "ab"); ReadAsText [LF; "c"%char];
             Call line_cb (EvLine (txt "ab") StepK); ReadAsText [];
             Call line_cb (EvLine (txt "c") EndK); Call end_cb EvEnd]
  = reads (txt "ab" ++ LF :: txt "c") 2 ∧
  concat (requested [ReadAsText (txt "ab"); ReadAsText [LF; "c"%char];
             Call line_cb (EvLine (txt "ab") StepK); ReadAsText [];
             Call line_cb (EvLine (txt "c") EndK); Call end_cb EvEnd])
  = txt "ab" ++ LF :: txt "c" ∧
  length (requested [ReadAsText (txt "ab"); ReadAsText [LF; "c"%char];
             Call line_cb (EvLine (txt "ab") StepK); ReadAsText [];
             Call line_cb (EvLine (txt "c") EndK); Call end_cb EvEnd])
  = S (Z.to_nat (Z.of_nat (length (txt "ab" ++ LF :: txt "c")) / 2)).
Proof.
  apply (requests_cover_file 2 (txt "ab" ++ LF :: txt "c") 10).
  - lia.
  - vm_compute. reflexivity.
Defined.

(** More fuel only lengthens a run. *)
Lemma drive_prefix (fuel : nat) : ∀ k src s owed,
  fst (drive fuel src s owed) `prefix_of` fst (drive (fuel + k) src s owed).
Proof.
  induction fuel as [|fuel IH]; intros k src s owed.
  - simpl. destruct (next_input src s owed); apply prefix_nil.
  - simpl. destruct (next_input src s owed) as [i|]; [|reflexivity].
    unfold resume. destruct (deliver i s) as [[[[]|e] s1] out]; [|reflexivity].
    specialize (IH k (source_after i src) s1 (handed out)).
    destruct (drive fuel _ s1 (handed out)) as [o1 st1].
    destruct (drive (fuel + k) _ s1 (handed out)) as [o2 st2].
    simpl in *. apply prefix_app, IH.
Qed.

(** X4: with a positive chunk size no [line] event carries the empty
    text, at any point of a session: blank lines are skipped, and the
    text left at the end of the file is delivered only when it is not
    empty. *)
Theorem lines_never_empty (fuel : nat) (cs : Z) (c : text) :
  (0 < cs)%Z → Forall (λ e, e ≠ Line []) (fst (session fuel cs c)).
Proof.
  intros Hcs. apply Forall_forall. intros e Hin ->.
  destruct (run_stops cs c Hcs) as (n & out & st_ & ls & Hrun & Hls & Hres).
  assert (Hall : Line [] ∈ fired out).
  { specialize (Hrun (fuel + n)%nat ltac:(lia)).
    unfold session, run in *.
    rewrite (read_bound cs c Hcs) in *. cbn [resume handed] in *.
    pose proof (drive_prefix fuel n []
      (reading cs c (events (bound (Some cs))) 0 []) None) as [k Hk].
    destruct (drive fuel [] _ None) as [o1 st1].
    destruct (drive (fuel + n) [] _ None) as [o2 st2].
    simpl in Hk, Hin, Hrun. inversion Hrun; subst.
    rewrite fired_read in *. rewrite fired_app.
    apply elem_of_app. left. exact Hin. }
  assert (Hl : Line [] ∈ map Line ls).
  { destruct Hres as [(_ & Hf & _)|(_ & Hf)]; rewrite Hf in Hall; [|exact Hall].
    apply elem_of_app in Hall as [H|H]; [exact H|].
    apply list_elem_of_singleton in H. discriminate. }
  apply list_elem_of_In, in_map_iff in Hl as (l & E & Hl).
  inversion E; subst. apply list_elem_of_In in Hl.
  rewrite Forall_forall in Hls. destruct (Hls [] Hl) as [_ Hne]. congruence.
Qed.

Lemma lines_never_empty_witness :
  Forall (λ e, e ≠ Line [])
         (fst (session 10 3 (txt "a" ++ LF :: LF :: txt "b" ++ [LF]))).
Proof. apply (lines_never_empty 10 3). lia. Defined.

(** ** When the completion handler throws *)

Lemma runs_all_terminators (s : text) :
  Forall (λ ch, is_terminator ch = true) s → runs [] s = [].
Proof.
  induction 1 as [|ch s Hch _ IH]; [reflexivity|]. simpl. rewrite Hch. exact IH.
Qed.

Lemma match_runs_None (s : text) :
  match_runs s = None ↔ Forall (λ ch, is_terminator ch = true) s.
Proof.
  unfold match_runs. split.
  - destruct (runs [] s) eqn:E; [|discriminate]. intros _.
    apply (runs_nil_inv s [] E).
  - intros H. rewrite (runs_all_terminators s H). reflexivity.
Qed.

(** X5: in a session that was not aborted, with no read in flight,
    [onload] throws exactly when the buffer, that is the pending text
    followed by the result of the read, is not empty and is made of
    ["\r"] and ["\n"] only; the exception is then [TypeError], and no
    event has been fired. *)
Theorem onload_throws_iff (cs : Z) (c : text) (ev : gmap string callback)
    (q : Z) (p r : text) (ls : option (list text)) (e : exn) :
  (∃ s' out, onload r (st cs c ev None q p ls) = (Throws e, s', out)) ↔
  (e = TypeError ∧ p ++ r ≠ [] ∧ Forall (λ ch, is_terminator ch = true) (p ++ r)).
Proof.
  split.
  - intros (s' & out & H).
    destruct (has_terminator (p ++ r)) eqn:Ht.
    + destruct (match_runs (p ++ r)) as [toks|] eqn:Hm.
      * exfalso. pose proof (match_runs_not_empty (p ++ r)) as Hne.
        rewrite Hm in Hne. revert H. unfold st. exec. rewrite Ht, Hm.
        destruct toks as [|t toks]; [congruence|].
        destruct (Z.leb_spec q (Z.of_nat (length c))) as [Hle|Hgt];
          [destruct (ends_with_LF (p ++ r))|]; exec;
          rewrite ?(proj2 (Z.leb_le _ _) Hle), ?(proj2 (Z.leb_gt _ _) Hgt);
          try (destruct (removelast (t :: toks)); exec;
               rewrite ?(proj2 (Z.leb_le _ _) Hle));
          destruct (ev !! "line"); discriminate.
      * destruct (onload_split_null cs c ev q p r ls Ht Hm) as (s'' & H').
        rewrite H' in H. inversion H; subst. repeat split.
        -- intros E. rewrite E in Ht. discriminate.
        -- apply match_runs_None, Hm.
    + exfalso. revert H. unfold st. exec. rewrite Ht.
      destruct (Z.leb_spec q (Z.of_nat (length c))); [discriminate|].
      destruct (p ++ r); [destruct (ev !! "end") | destruct (ev !! "line")];
        discriminate.
  - intros (-> & Hne & Hall).
    assert (Ht : has_terminator (p ++ r) = true).
    { destruct (p ++ r) as [|ch x]; [congruence|].
      inversion Hall as [|? ? Hch _]; subst. simpl. rewrite Hch. reflexivity. }
    destruct (onload_split_null cs c ev q p r ls Ht (proj2 (match_runs_None _) Hall))
      as (s' & H).
    exists s', []. exact H.
Qed.

(** ** After [abort] *)

Lemma step_aborted (s : internals) r s' out :
  canRead s = false → _step s = (r, s', out) →
  canRead s' = false ∧ Forall not_from_queue out.
Proof.
  intros Hc. destruct s as [rd cs ev cr f fl q p ls]. simpl in Hc. subst cr.
  destruct ls as [[|l ls']|], rd, f; exec;
    destruct (Z.leb_spec q fl); destruct (ev !! "end");
    intros Heq; inversion Heq; subst; simpl;
    (split; [reflexivity | repeat constructor]).
Qed.

Ltac by_step_aborted :=
  match goal with
  | |- context [_step ?X] =>
      let E := fresh "E" in
      let Heq := fresh "Heq" in
      destruct (_step X) as [[? ?] ?] eqn:E; simpl; intros Heq;
      inversion Heq; subst; clear Heq; eapply step_aborted; [|exact E]
  end.

Lemma onload_aborted (s : internals) (result : text) r s' out :
  canRead s = false → onload result s = (r, s', out) →
  canRead s' = false ∧ Forall not_from_queue out.
Proof.
  intros Hc. destruct s as [rd cs ev cr f fl q p ls]. simpl in Hc. subst cr.
  destruct (has_terminator (p ++ result)) eqn:Ht.
  - exec_to_step. rewrite Ht.
    destruct (Z.leb_spec q fl);
      [destruct (ends_with_LF (p ++ result));
         [|destruct (match_runs (p ++ result))]|];
      try (by_step_aborted; reflexivity).
    intros Heq. inversion Heq; subst. split; [reflexivity | constructor].
  - destruct f, rd, (p ++ result) eqn:Epr; exec; rewrite ?Epr, ?Ht;
      destruct (Z.leb_spec q fl); destruct (ev !! "line"); destruct (ev !! "end");
      intros Heq; inversion Heq; subst; simpl;
      (split; [reflexivity | repeat constructor]).
Qed.

Lemma deliver_aborted (i : input) (s : internals) r s' out :
  canRead s = false → deliver i s = (r, s', out) →
  canRead s' = false ∧ Forall not_from_queue out.
Proof.
  intros Hc. destruct i as [n cb|f| |[|]| |cause].
  - destruct s. simpl in Hc. subst. exec. intros Heq. inversion Heq; subst.
    split; [reflexivity | constructor].
  - destruct s as [rd cs ev cr f0 fl q p ls]. simpl in Hc. subst.
    destruct f, rd, f0; exec; intros Heq; inversion Heq; subst;
      (split; [reflexivity | repeat constructor]).
  - destruct s. exec. intros Heq. inversion Heq; subst.
    split; [reflexivity | constructor].
  - intros H. exact (step_aborted s r s' out Hc H).
  - destruct s. simpl in Hc. subst. exec. destruct (_ !! "end");
      intros Heq; inversion Heq; subst; (split; [reflexivity | repeat constructor]).
  - destruct s as [rd cs ev cr f fl q p ls]. simpl in Hc. subst.
    destruct rd as [blob|].
    + intros H. apply (onload_aborted
        {| reader := None; chunkSize := cs; events := ev; canRead := false;
           file := f; fileLength := fl; readPos := q; chunk := p; lines := ls |}
        blob r s' out); [reflexivity|].
      revert H. cbv [deliver mbind M_bind get modify set_reader
                     reader chunkSize events canRead file fileLength readPos chunk lines].
      match goal with |- context [onload blob ?X] =>
        destruct (onload blob X) as [[[[]|e] s1] out1] end;
        intros H; inversion H; reflexivity.
    + intros H. inversion H; subst. split; [reflexivity | constructor].
  - destruct s as [rd cs ev cr f fl q p ls]. simpl in Hc. subst.
    destruct rd; exec; [destruct (ev !! "error")|];
      intros Heq; inversion Heq; subst; (split; [reflexivity | repeat constructor]).
Qed.

(** X6: once [canRead] is false, nothing the consumer or the
    [FileReader] does sets it again, and no line is taken from the queue
    any more, whatever is called and in whatever order, a new [read(file)]
    included: the only [line] event that can still fire is the one that
    [onload] emits with the text left at the end of the file. *)
Theorem aborted_queue_not_delivered (ins : list input) (s : internals) :
  canRead s = false →
  canRead (state_after ins s) = false ∧
  Forall not_from_queue (fst (transcript ins s)).
Proof.
  unfold state_after, transcript, script. revert s.
  induction ins as [|i ins IH]; intros s Hc; simpl; [split; [exact Hc | constructor]|].
  destruct (deliver i s) as [[r s1] out] eqn:Hd.
  destruct (deliver_aborted i s r s1 out Hc Hd) as [Hc1 Hout].
  destruct r as [[]|e]; [|split; assumption].
  specialize (IH s1 Hc1).
  destruct (script_of deliver ins s1) as [[out' s2] r'].
  destruct IH as [IH1 IH2]. split; [exact IH1|]. simpl in *.
  apply Forall_app. split; assumption.
Qed.

Lemma aborted_queue_not_delivered_witness :
  canRead (state_after [Next StepK; Read (Some {| content := txt "x" ++ [LF] |}); Load]
                       aborted_instance) = false ∧
  Forall not_from_queue
    (fst (transcript [Next StepK; Read (Some {| content := txt "x" ++ [LF] |}); Load]
                     aborted_instance)).
Proof.
  apply (aborted_queue_not_delivered
           [Next StepK; Read (Some {| content := txt "x" ++ [LF] |}); Load]
           aborted_instance).
  reflexivity.
Defined.

(** ** A negative chunk size *)

Lemma step_endless (s : internals) r s' out :
  endless s (Some StepK) → reader s = None → _step s = (r, s', out) →
  Forall not_end out ∧ (r = Normal tt → endless s' (handed out)).
Proof.
  intros (Hcs & Hq & Hc & [f Hf] & [cb Hcb] & _) Hrd.
  destruct s as [rd cs ev cr f0 fl q p ls]. simpl in *. subst.
  destruct ls as [[|l ls']|]; exec; rewrite ?(proj2 (Z.leb_le _ _) Hq), ?Hcb;
    intros Heq; inversion Heq; subst; simpl;
    (split; [repeat constructor|]); try discriminate; intros _;
    unfold endless; simpl; rewrite ?Hcb; repeat split; eauto; lia.
Qed.

Ltac by_step_endless :=
  match goal with
  | |- context [_step ?X] =>
      let E := fresh "E" in
      let Heq := fresh "Heq" in
      destruct (_step X) as [[? ?] ?] eqn:E; simpl; intros Heq;
      inversion Heq; subst; clear Heq; eapply step_endless; [| |exact E]
  end.

Lemma onload_endless (s : internals) (result : text) r s' out :
  endless s (Some StepK) → reader s = None → onload result s = (r, s', out) →
  Forall not_end out ∧ (r = Normal tt → endless s' (handed out)).
Proof.
  intros (Hcs & Hq & Hc & [f Hf] & [cb Hcb] & _) Hrd.
  destruct s as [rd cs ev cr f0 fl q p ls]. simpl in *. subst.
  destruct (has_terminator (p ++ result)) eqn:Ht.
  - exec_to_step. rewrite Ht, (proj2 (Z.leb_le _ _) Hq).
    destruct (ends_with_LF (p ++ result)); [|destruct (match_runs (p ++ result))];
      try (by_step_endless; [unfold endless; simpl; rewrite ?Hcb; repeat split; eauto | reflexivity]).
    intros Heq. inversion Heq; subst. split; [constructor | discriminate].
  - exec. rewrite Ht, (proj2 (Z.leb_le _ _) Hq).
    intros Heq; inversion Heq; subst; simpl.
    split; [repeat constructor|]. intros _.
    unfold endless; simpl; rewrite ?Hcb; repeat split; eauto; lia.
Qed.

Lemma drive_endless (fuel : nat) : ∀ s owed,
  endless s owed →
  snd (drive fuel [] s owed) ≠ Quiescent ∧ Forall not_end (fst (drive fuel [] s owed)).
Proof.
  induction fuel as [|fuel IH]; intros s owed Hs.
  - simpl. destruct Hs as (_ & _ & _ & _ & _ & [[b Hb]| ->]).
    + unfold next_input. rewrite Hb. simpl. split; [discriminate | constructor].
    + unfold next_input. destruct (reader s); simpl; split; (discriminate || constructor).
  - assert (Hstep : ∃ i r s1 out,
      next_input [] s owed = Some i ∧ deliver i s = (r, s1, out) ∧
      Forall not_end out ∧ (r = Normal tt → endless s1 (handed out))).
    { destruct s as [rd cs ev cr f fl q p ls]. destruct rd as [blob|].
      - exists Load.
        destruct (onload blob {| reader := None; chunkSize := cs; events := ev;
                    canRead := cr; file := f; fileLength := fl; readPos := q;
                    chunk := p; lines := ls |}) as [[r s1] out] eqn:E.
        exists r, s1, out. split; [reflexivity|]. split.
        + cbv [deliver mbind M_bind get modify set_reader
               reader chunkSize events canRead file fileLength readPos chunk lines].
          rewrite E. destruct r as [[]|]; reflexivity.
        + eapply onload_endless; [| |exact E]; [|reflexivity].
          destruct Hs as (? & ? & ? & ? & ? & _). repeat split; eauto.
      - destruct Hs as (H1 & H2 & H3 & H4 & H5 & [[b Hb]| ->]); [discriminate|].
        exists (Next StepK).
        destruct (_step {| reader := None; chunkSize := cs; events := ev;
                    canRead := cr; file := f; fileLength := fl; readPos := q;
                    chunk := p; lines := ls |}) as [[r s1] out] eqn:E.
        exists r, s1, out. split; [reflexivity|]. split; [exact E|].
        eapply step_endless; [| |exact E]; [|reflexivity]. repeat split; eauto. }
    destruct Hstep as (i & r & s1 & out & Hi & Hd & Hout & Hnext).
    assert (Hsrc : source_after i [] = []) by (destruct i; reflexivity).
    simpl. rewrite Hi, Hd, Hsrc. unfold resume.
    destruct r as [[]|e]; [|split; [discriminate | exact Hout]].
    specialize (IH s1 (handed out) (Hnext eq_refl)).
    destruct (drive fuel [] s1 (handed out)) as [out' st_]. simpl in *.
    destruct IH as [IH1 IH2]. split; [exact IH1 | apply Forall_app; split; assumption].
Qed.

(** X7: a negative chunk size is taken as it is, and a session then never
    ends: whatever the content and however long the run, no [end] event
    fires and the run does not come to rest; it goes on asking for reads,
    unless it throws. *)
Theorem negative_chunk_never_ends (cs : Z) (c : text) (fuel : nat) :
  (cs < 0)%Z →
  chunkSize (LineReader (Some cs)) = cs ∧
  snd (session fuel cs c) ≠ Quiescent ∧
  Forall (λ e, e ≠ End) (fst (session fuel cs c)).
Proof.
  intros Hcs. split.
  { simpl. destruct (Z.eqb_spec cs 0); [lia | reflexivity]. }
  unfold session, run. rewrite read_file_state by reflexivity.
  cbn [resume handed].
  match goal with |- context [drive fuel [] ?s None] =>
    destruct (drive_endless fuel s None) as [H1 H2];
    [|destruct (drive fuel [] s None) as [out st_]] end.
  - unfold endless, File_size. simpl. destruct (Z.eqb_spec cs 0); [lia|].
    repeat split; eauto; lia.
  - simpl in *. split; [exact H1|].
    apply Forall_forall. intros e He ->.
    rewrite Forall_forall in H2.
    unfold fired in He. apply list_elem_of_omap in He as (a & Ha & Hob).
    pose proof (H2 a Ha) as Hn.
    destruct a as [cb [| |]|]; simpl in Hob, Hn; try discriminate. exact Hn.
Qed.

Lemma negative_chunk_never_ends_witness :
  chunkSize (LineReader (Some (-4)%Z)) = (-4)%Z ∧
  snd (session 20 (-4) (txt "ab" ++ LF :: txt "cdefgh")) ≠ Quiescent ∧
  Forall (λ e, e ≠ End) (fst (session 20 (-4) (txt "ab" ++ LF :: txt "cdefgh"))).
Proof. apply (negative_chunk_never_ends (-4) (txt "ab" ++ LF :: txt "cdefgh") 20). lia. Defined.

(** ** Registering callbacks *)

(** X8: [on] keeps one callback for each event name, the last one
    registered: after [on(name, cb0)] and [on(name, cb)], an emission of
    the event [name] calls [cb], once, with the arguments of the emission,
    and an emission of any other event does what it did before; nothing
    else of the instance has changed.  On a new instance no callback is
    bound, and an emission calls nothing. *)
Theorem on_last_registration_wins (s : internals) (name : string)
    (cb0 cb : callback) (ev : emitted) :
  (on name cb0 ;; on name cb ;; _emit ev) s
  = (Normal tt, set_events (<[name := cb]> (events s)) s,
     if decide (event_name ev = name) then [Call cb ev] else snd (_emit ev s)) ∧
  ∀ options, _emit ev (LineReader options) = (Normal tt, LineReader options, []).
Proof.
  split; [|intros options; unfold _emit, LineReader; exec;
           rewrite lookup_empty; reflexivity].
  destruct s as [rd cs evs cr f fl q p ls].
  destruct ev; exec; rewrite insert_insert_eq;
    match goal with |- context [decide (?n = name)] =>
      destruct (decide (n = name)) as [<-|Hne];
        [rewrite lookup_insert_eq; reflexivity
        |rewrite lookup_insert_ne by congruence;
         destruct (evs !! n); reflexivity]
    end.
Qed.

(** ** The earlier version: what it delivers *)

Lemma has_LF_false (s : text) : has_LF s = false ↔ LF_free s.
Proof.
  unfold has_LF, LF_free. induction s as [|ch s IH]; simpl.
  - split; [constructor | reflexivity].
  - rewrite orb_false_iff, IH, Forall_cons.
    destruct (Ascii.eqb_spec ch LF); split; intros []; split;
      congruence || assumption.
Qed.

(** [split] on a text without ["\n"], and on a line. *)
Lemma split_LF_free (x : text) : ∀ cur, LF_free x → Variant.split_LF cur x = [cur ++ x].
Proof.
  induction x as [|ch x IH]; intros cur H; simpl.
  - rewrite app_nil_r. reflexivity.
  - inversion H as [|? ? Hch Hx]; subst.
    destruct (Ascii.eqb_spec ch LF); [contradiction|].
    rewrite IH, <- app_assoc by exact Hx. reflexivity.
Qed.

Lemma split_LF_line (l : text) : ∀ cur x,
  LF_free l → Variant.split_LF cur (l ++ LF :: x) = (cur ++ l) :: Variant.split_LF [] x.
Proof.
  induction l as [|ch l IH]; intros cur x H; simpl.
  - rewrite app_nil_r. reflexivity.
  - inversion H as [|? ? Hch Hl]; subst.
    destruct (Ascii.eqb_spec ch LF); [contradiction|].
    rewrite IH, <- app_assoc by exact Hl. reflexivity.
Qed.

(** [split] gives back the lines of a file and what follows the last
    ["\n"]. *)
Lemma split_LF_terminated (ls : list text) (tail : text) :
  Forall LF_free ls → LF_free tail →
  Variant.split_LF [] (terminated ls ++ tail) = ls ++ [tail].
Proof.
  intros Hls Htail. induction Hls as [|l ls Hl _ IH]; simpl.
  - apply (split_LF_free tail [] Htail).
  - unfold terminated in *. simpl. rewrite <- !app_assoc. simpl.
    rewrite split_LF_line by exact Hl. simpl. f_equal. exact IH.
Qed.

Lemma has_LF_terminated (l : text) (ls : list text) (tail : text) :
  has_LF (terminated (l :: ls) ++ tail) = true.
Proof.
  unfold terminated, has_LF. simpl. rewrite <- !app_assoc, existsb_app. simpl.
  rewrite orb_true_r. reflexivity.
Qed.

Ltac vexec :=
  cbv [Variant.deliver Variant.onload Variant._step Variant.read Variant.stop
       Variant.LineReader Variant_bound Variant_st on
       readAsText pop_into_chunk
       mbind M_bind mret M_ret get modify act throw
       set_reader set_events set_canRead set_readPos set_chunk set_lines set_file
       reader chunkSize events canRead file fileLength readPos chunk lines
       content File_size].

Lemma Variant_read_bound (c : text) :
  Variant.read (Variant_bound c)
  = (Normal tt, Variant_st c (Some (slice c 0 (0 + 1024))) (0 + 1024) [] (Some []),
     [ReadAsText (slice c 0 (0 + 1024))]).
Proof. reflexivity. Qed.

Lemma Variant_drive_load (c : text) fuel r q p ls owed :
  Variant_drive (S fuel) (Variant_st c (Some r) q p ls) owed
  = resume (Variant_drive fuel) (Variant.onload r (Variant_st c None q p ls)).
Proof.
  unfold Variant_st. cbn [Variant_drive next_input reader].
  cbv [Variant.deliver mbind M_bind get modify set_reader
       reader chunkSize events canRead file fileLength readPos chunk lines].
  match goal with |- context [Variant.onload r ?s] =>
    destruct (Variant.onload r s) as [[[[]|e] s1] out1] end; reflexivity.
Qed.

(** Without a ["\n"] in the buffer, [onload] keeps the text and does
    nothing else. *)
Lemma Variant_onload_quiet (c : text) q p r ls :
  has_LF (p ++ r) = false →
  Variant.onload r (Variant_st c None q p ls)
  = (Normal tt, Variant_st c None q (p ++ r) ls, []).
Proof. intros H. fold has_LF. vexec. fold (has_LF (p ++ r)). rewrite H. reflexivity. Qed.

Lemma Variant_onload_split (c : text) q p r ls init open :
  has_LF (p ++ r) = true →
  Variant.split_LF [] (p ++ r) = init ++ [open] →
  Variant.onload r (Variant_st c None q p ls)
  = Variant._step (Variant_st c None q open (Some init)).
Proof.
  intros H Hs. vexec. fold (has_LF (p ++ r)). rewrite H, Hs.
  rewrite last_snoc, removelast_last. simpl.
  destruct init; reflexivity.
Qed.

Lemma Variant_step_line (c : text) q p l ls :
  Variant._step (Variant_st c None q p (Some (l :: ls)))
  = (Normal tt, Variant_st c None q p (Some ls), [Call line_cb (EvLine l StepK)]).
Proof. reflexivity. Qed.

Lemma Variant_step_read (c : text) q p :
  Variant._step (Variant_st c None q p (Some []))
  = (Normal tt, Variant_st c (Some (slice c q (q + 1024))) (q + 1024) p (Some []),
     [ReadAsText (slice c q (q + 1024))]).
Proof. reflexivity. Qed.

Lemma Variant_drain (c : text) (ls : list text) : ∀ q p fuel out st_,
  resume (Variant_drive fuel) (Variant._step (Variant_st c None q p (Some []))) = (out, st_) →
  resume (Variant_drive (length ls + fuel))
         (Variant._step (Variant_st c None q p (Some ls)))
  = (map (λ l, Call line_cb (EvLine l StepK)) ls ++ out, st_).
Proof.
  induction ls as [|l ls IH]; intros q p fuel out st_ H; [exact H|].
  rewrite Variant_step_line. cbn [length Nat.add resume handed].
  change (Variant_drive (S (length ls + fuel)) (Variant_st c None q p (Some ls)) (Some StepK))
    with (resume (Variant_drive (length ls + fuel))
            (Variant._step (Variant_st c None q p (Some ls)))).
  rewrite (IH _ _ _ _ _ H). reflexivity.
Qed.

Lemma Variant_drive_fuel_mono (fuel : nat) : ∀ s owed out st_ fuel',
  Variant_drive fuel s owed = (out, st_) → st_ ≠ OutOfFuel → fuel ≤ fuel' →
  Variant_drive fuel' s owed = (out, st_).
Proof.
  induction fuel as [|fuel IH]; intros s owed out st_ fuel' H Hst Hle.
  - simpl in H. destruct (next_input [] s owed) eqn:Hi.
    + inversion H; subst. congruence.
    + inversion H; subst. destruct fuel'; simpl; rewrite Hi; reflexivity.
  - destruct fuel' as [|fuel']; [lia|]. simpl in *.
    destruct (next_input [] s owed) as [i|]; [|assumption].
    unfold resume in *.
    destruct (Variant.deliver i s) as [[[[]|e] s1] out1]; [|assumption].
    destruct (Variant_drive fuel s1 (handed out1)) as [out2 st2] eqn:E.
    inversion H; subst.
    rewrite (IH _ _ _ _ fuel' E) by (assumption || lia). reflexivity.
Qed.

Lemma Variant_run_fuel_mono (fuel fuel' : nat) (c : text) out st_ :
  Variant_run fuel c = (out, st_) → st_ ≠ OutOfFuel → fuel ≤ fuel' →
  Variant_run fuel' c = (out, st_).
Proof.
  unfold Variant_run. rewrite Variant_read_bound. cbn [resume handed].
  intros H Hst Hle.
  destruct (Variant_drive fuel _ None) as [o s] eqn:E. inversion H; subst.
  rewrite (Variant_drive_fuel_mono _ _ _ _ _ fuel' E Hst Hle). reflexivity.
Qed.

Lemma slice_take (c : text) (k : Z) :
  (0 < k)%Z → slice c 0 (0 + k) = take (Z.to_nat k) c.
Proof.
  intros Hk. unfold slice.
  destruct (Z.ltb_spec 0 0); [lia|].
  destruct (Z.ltb_spec (0 + k) 0); [lia|].
  rewrite (Z.min_l 0) by lia. rewrite Z.sub_0_r.
  change (Z.to_nat 0) with 0%nat. rewrite drop_0.
  destruct (Z_le_gt_dec k (Z.of_nat (length c))).
  - rewrite Z.min_l, Z.max_l by lia. reflexivity.
  - rewrite Z.min_r, Z.max_l by lia. rewrite !take_ge by lia. reflexivity.
Qed.

(** X9: the earlier version stops at a buffer without ["\n"]: when the
    first 1024 bytes of the file hold no ["\n"], the first read is the
    only one, and no event ever fires, however long the file is. *)
Theorem Variant_stops_without_LF (c : text) (fuel : nat) :
  LF_free (take 1024 c) → 1 ≤ fuel →
  Variant_run fuel c = ([ReadAsText (take 1024 c)], Quiescent).
Proof.
  intros H Hfuel. apply (Variant_run_fuel_mono 1); [|discriminate | exact Hfuel].
  unfold Variant_run. rewrite Variant_read_bound. cbn [resume handed].
  rewrite Variant_drive_load, (slice_take c 1024) by lia.
  rewrite Variant_onload_quiet by (apply has_LF_false, H).
  reflexivity.
Qed.

Lemma Variant_stops_without_LF_witness :
  Variant_run 5 (txt "no newline" ++ CR :: txt "here")
  = ([ReadAsText (take 1024 (txt "no newline" ++ CR :: txt "here"))], Quiescent).
Proof.
  apply (Variant_stops_without_LF (txt "no newline" ++ CR :: txt "here") 5).
  - repeat constructor; discriminate.
  - lia.
Defined.

(** X10: on a file shorter than one chunk that holds a ["\n"], the
    earlier version delivers the lines that a ["\n"] ends, in order, the
    empty ones and any ["\r"] included; it then reads once more, an empty
    blob, and stops: the text after the last ["\n"] is never delivered,
    and there is no [end] event. *)
Theorem Variant_short_file (l : text) (ls : list text) (tail : text) :
  Forall LF_free (l :: ls) → LF_free tail →
  (Z.of_nat (length (terminated (l :: ls) ++ tail)) < 1024)%Z →
  ∃ n, ∀ fuel, n ≤ fuel →
    Variant_run fuel (terminated (l :: ls) ++ tail)
    = (ReadAsText (terminated (l :: ls) ++ tail)
         :: map (λ l, Call line_cb (EvLine l StepK)) (l :: ls)
         ++ [ReadAsText []], Quiescent).
Proof.
  intros Hls Htail Hlen. set (c := terminated (l :: ls) ++ tail) in *.
  exists (S (length (l :: ls) + 1)). intros fuel Hle.
  apply (Variant_run_fuel_mono (S (length (l :: ls) + 1))); [|discriminate | exact Hle].
  unfold Variant_run. rewrite Variant_read_bound. cbn [resume handed].
  rewrite (slice_whole c 1024 Hlen).
  rewrite Variant_drive_load.
  rewrite (Variant_onload_split c _ [] c _ (l :: ls) tail);
    [|apply has_LF_terminated | apply split_LF_terminated; assumption].
  erewrite Variant_drain; [reflexivity|].
  rewrite Variant_step_read. cbn [resume handed].
  rewrite Variant_drive_load.
  assert (Hs : slice c (0 + 1024) (0 + 1024 + 1024) = []).
  { pose proof (slice_drop c (0 + 1024) 1024 ltac:(lia) ltac:(lia)) as E.
    rewrite drop_ge in E by lia. symmetry in E.
    apply app_eq_nil in E as [E _]. exact E. }
  rewrite Hs, Variant_onload_quiet by (rewrite app_nil_r; apply has_LF_false, Htail).
  reflexivity.
Qed.

Lemma Variant_short_file_witness :
  ∃ n, ∀ fuel, n ≤ fuel →
    Variant_run fuel (terminated [txt "a" ++ [CR]; []; txt "b"] ++ txt "tail")
    = (ReadAsText (terminated [txt "a" ++ [CR]; []; txt "b"] ++ txt "tail")
         :: map (λ l, Call line_cb (EvLine l StepK)) [txt "a" ++ [CR]; []; txt "b"]
         ++ [ReadAsText []], Quiescent).
Proof.
  apply (Variant_short_file (txt "a" ++ [CR]) [[]; txt "b"] (txt "tail")).
  - repeat constructor; discriminate.
  - repeat constructor; discriminate.
  - vm_compute. reflexivity.
Defined.

(** ** The chunk size and the lines *)

Lemma chunk_size_irrelevant_witness :
  ∃ n, ∀ fuel, n ≤ fuel →
    session fuel 2 (txt "ab" ++ LF :: txt "cde" ++ LF :: txt "f")
    = (map Line (runs [] (txt "ab" ++ LF :: txt "cde" ++ LF :: txt "f")) ++ [End],
       Quiescent) ∧
    session fuel 5 (txt "ab" ++ LF :: txt "cde" ++ LF :: txt "f")
    = session fuel 2 (txt "ab" ++ LF :: txt "cde" ++ LF :: txt "f").
Proof.
  apply (chunk_size_irrelevant 2 5 (txt "ab" ++ LF :: txt "cde" ++ LF :: txt "f")).
  - lia.
  - lia.
  - repeat constructor; discriminate.
  - simpl. repeat split.
  - repeat constructor.
Defined.

Lemma final_fragment_delivered_witness :
  ∃ n, ∀ fuel, n ≤ fuel →
    session fuel 2 ((txt "ab" ++ [LF]) ++ txt "cde")
    = (map Line (runs [] (txt "ab" ++ [LF])) ++ [Line (txt "cde"); End], Quiescent).
Proof.
  apply (final_fragment_delivered 2 (txt "ab" ++ [LF]) (txt "cde")).
  - lia.
  - repeat constructor; discriminate.
  - simpl. repeat split.
  - repeat constructor.
  - right. exists (txt "ab"). reflexivity.
  - repeat constructor.
  - discriminate.
Defined.



(** ** The earlier version after [stop] *)

Lemma Variant_step_stopped (s : internals) r s' out :
  canRead s = false → Variant._step s = (r, s', out) →
  canRead s' = false ∧ Forall is_request out.
Proof.
  intros Hc. destruct s as [rd cs ev cr f fl q p ls]. simpl in Hc. subst cr.
  destruct ls as [[|l ls']|], rd, f; vexec; try destruct (ev !! "line");
    intros Heq; inversion Heq; subst; simpl;
    (split; [reflexivity | repeat constructor]).
Qed.

Lemma Variant_deliver_stopped (i : input) (s : internals) r s' out :
  canRead s = false → Variant.deliver i s = (r, s', out) →
  canRead s' = false ∧ Forall is_request out.
Proof.
  intros Hc. destruct i as [n cb|f| |k| |cause].
  - destruct s. simpl in Hc. subst. vexec. intros Heq. inversion Heq; subst.
    split; [reflexivity | constructor].
  - destruct s as [rd cs ev cr f0 fl q p ls]. simpl in Hc. subst.
    destruct rd, f0; vexec; intros Heq; inversion Heq; subst;
      (split; [reflexivity | repeat constructor]).
  - destruct s. vexec. intros Heq. inversion Heq; subst.
    split; [reflexivity | constructor].
  - intros H. exact (Variant_step_stopped s r s' out Hc H).
  - destruct s as [rd cs ev cr f fl q p ls]. simpl in Hc. subst.
    destruct rd as [blob|].
    + cbv [Variant.deliver Variant.onload mbind M_bind get modify mret M_ret
           pop_into_chunk set_reader set_chunk set_lines
           reader chunkSize events canRead file fileLength readPos chunk lines].
      destruct (existsb _ (p ++ blob)).
      * match goal with |- context [Variant._step ?X] =>
          destruct (Variant._step X) as [[r0 s0] o0] eqn:E end.
        simpl. intros Heq. inversion Heq; subst.
        eapply Variant_step_stopped; [|exact E]. reflexivity.
      * intros Heq. inversion Heq; subst. split; [reflexivity | constructor].
    + intros H. inversion H; subst. split; [reflexivity | constructor].
  - destruct s. simpl in Hc. subst. vexec. intros Heq. inversion Heq; subst.
    split; [reflexivity | constructor].
Qed.

(** X14: in the earlier version, once [stop()] was called nothing sets
    [canRead] again and no callback is ever called any more, whatever the
    consumer and the [FileReader] do: all that may still happen is that
    reads are asked. *)
Theorem Variant_stopped_calls_nothing (ins : list input) (s : internals) :
  canRead s = false →
  Forall is_request (fst (Variant.transcript ins s)).
Proof.
  unfold Variant.transcript. revert s.
  induction ins as [|i ins IH]; intros s Hc; simpl; [constructor|].
  destruct (Variant.deliver i s) as [[r s1] out] eqn:Hd.
  destruct (Variant_deliver_stopped i s r s1 out Hc Hd) as [Hc1 Hout].
  destruct r as [[]|e]; [|exact Hout].
  specialize (IH s1 Hc1).
  destruct (script_of Variant.deliver ins s1) as [[out' s2] r'].
  simpl in *. apply Forall_app. split; assumption.
Qed.

Lemma Variant_stopped_calls_nothing_witness :
  Forall is_request
    (fst (Variant.transcript [Load; Next StepK; Load]
            (set_canRead false
               (Variant_st (txt "a" ++ LF :: txt "b")
                  (Some (txt "a" ++ LF :: txt "b")) 1024 [] (Some []))))).
Proof.
  apply (Variant_stopped_calls_nothing [Load; Next StepK; Load]).
  reflexivity.
Defined.
